(** * NORAN site script: a shallow embedding of [script.js]

    The script wires five small behaviours to the document when it has
    loaded: a sticky header, a mobile menu, a scroll-reveal engine built
    on one IntersectionObserver, a number counter driven by
    [requestAnimationFrame], and a mocked video button driven by
    [setTimeout].

    The browser is modelled as a [Page]: the element store, the listeners
    installed so far, the observer's targets, the pending animation-frame
    callbacks, the timer queue, and what was written to the console and
    shown by [alert].  Closures of the script are kept as data (a
    constructor per closure, carrying what the closure captured).

    Numbers are exact: timestamps and scroll offsets are rationals and
    counter targets are naturals.  The rounding of IEEE doubles is not
    part of the model. *)

From Stdlib Require Import Ascii String QArith Qminmax Qround Lqa Sorted.
From stdpp Require Import gmap strings list pretty.

Local Open Scope string_scope.
Local Open Scope list_scope.
Local Open Scope nat_scope.

(** ** Central configuration (the [CONFIG] object) *)

Module CONFIG.
Definition scrollThreshold : Q := 50%Q.
Definition animationOffset : string := "15%".
Definition counterDuration : Q := 2000%Q.
Definition staggerDelay : N := 100%N.
End CONFIG.

(** ** Elements and the element store *)

(** An element is known by its index in the store; the store lists the
    elements in document order. *)
Record Element := mkElement {
  parentNode : option nat;
  classList : gset string;
  attributes : gmap string string;
  innerHTML : string;
  style : gmap string string
}.

Definition with_classList (f : gset string → gset string) (e : Element) : Element :=
  mkElement (parentNode e) (f (classList e)) (attributes e) (innerHTML e) (style e).

Definition with_attribute (k v : string) (e : Element) : Element :=
  mkElement (parentNode e) (classList e) (<[k:=v]> (attributes e)) (innerHTML e) (style e).

Definition with_innerHTML (s : string) (e : Element) : Element :=
  mkElement (parentNode e) (classList e) (attributes e) s (style e).

Definition with_style (k v : string) (e : Element) : Element :=
  mkElement (parentNode e) (classList e) (attributes e) (innerHTML e) (<[k:=v]> (style e)).

(** *** DOMTokenList operations on a class set *)

Definition classList_add (c : string) (cs : gset string) : gset string := cs ∪ {[c]}.
Definition classList_remove (c : string) (cs : gset string) : gset string := cs ∖ {[c]}.
Definition classList_contains (c : string) (cs : gset string) : bool := bool_decide (c ∈ cs).
Definition classList_toggle (c : string) (cs : gset string) : gset string :=
  if classList_contains c cs then classList_remove c cs else classList_add c cs.

(** ** Closures of the script, as data *)

(** The closure [step] of [animateValue]: what it captured ([obj],
    [target], [suffix]) and the current value of its mutable variable
    [startTimestamp] ([None] is [null]).  A [target] of [None] is NaN. *)
Record Step := mkStep {
  step_obj : nat;
  step_target : option N;
  step_suffix : string;
  startTimestamp : option Q
}.

(** Event handlers.  Each carries the elements its closure captured. *)
Inductive Handler :=
| HandleScroll (header : nat)
| ToggleMenu (menuBtn navList : nat)
| NavLinkClick (menuBtn navList : nat)
| DocumentClick (menuBtn navList : nat)
| PlayClick (btn : nat).

Inductive EventTarget := Window | Document | Node (n : nat).

Global Instance EventTarget_eq_dec : EqDecision EventTarget.
Proof. solve_decision. Defined.

Record Listener := mkListener {
  listener_target : EventTarget;
  listener_type : string;
  listener_handler : Handler
}.

(** Callbacks handed to [setTimeout]. *)
Inductive TimerCallback :=
| ResetTransform (btn : nat)
| RestoreLabel (btn : nat) (originalText : string).

Record Timer := mkTimer {
  timer_id : nat;
  timer_due : N;
  timer_callback : TimerCallback
}.

(** ** The page *)

Record Page := mkPage {
  dom : list Element;
  scrollY : Q;
  listeners : list Listener;
  observed : gset nat;
  frameRequests : list Step;
  clock : N;
  timers : list Timer;
  nextTimer : nat;
  console : list (list string);
  alerts : list string
}.

Definition with_dom (f : list Element → list Element) (p : Page) : Page :=
  mkPage (f (dom p)) (scrollY p) (listeners p) (observed p) (frameRequests p)
         (clock p) (timers p) (nextTimer p) (console p) (alerts p).

Definition with_scrollY (y : Q) (p : Page) : Page :=
  mkPage (dom p) y (listeners p) (observed p) (frameRequests p)
         (clock p) (timers p) (nextTimer p) (console p) (alerts p).

Definition with_listeners (f : list Listener → list Listener) (p : Page) : Page :=
  mkPage (dom p) (scrollY p) (f (listeners p)) (observed p) (frameRequests p)
         (clock p) (timers p) (nextTimer p) (console p) (alerts p).

Definition with_observed (f : gset nat → gset nat) (p : Page) : Page :=
  mkPage (dom p) (scrollY p) (listeners p) (f (observed p)) (frameRequests p)
         (clock p) (timers p) (nextTimer p) (console p) (alerts p).

Definition with_frameRequests (f : list Step → list Step) (p : Page) : Page :=
  mkPage (dom p) (scrollY p) (listeners p) (observed p) (f (frameRequests p))
         (clock p) (timers p) (nextTimer p) (console p) (alerts p).

Definition with_clock (t : N) (p : Page) : Page :=
  mkPage (dom p) (scrollY p) (listeners p) (observed p) (frameRequests p)
         t (timers p) (nextTimer p) (console p) (alerts p).

Definition with_timers (f : list Timer → list Timer) (p : Page) : Page :=
  mkPage (dom p) (scrollY p) (listeners p) (observed p) (frameRequests p)
         (clock p) (f (timers p)) (nextTimer p) (console p) (alerts p).

Definition with_nextTimer (n : nat) (p : Page) : Page :=
  mkPage (dom p) (scrollY p) (listeners p) (observed p) (frameRequests p)
         (clock p) (timers p) n (console p) (alerts p).

Definition console_log (args : list string) (p : Page) : Page :=
  mkPage (dom p) (scrollY p) (listeners p) (observed p) (frameRequests p)
         (clock p) (timers p) (nextTimer p) (console p ++ [args]) (alerts p).

Definition alert (msg : string) (p : Page) : Page :=
  mkPage (dom p) (scrollY p) (listeners p) (observed p) (frameRequests p)
         (clock p) (timers p) (nextTimer p) (console p) (alerts p ++ [msg]).

(** A document as the browser hands it to the script: nothing installed,
    nothing pending, nothing printed. *)
Definition load (d : list Element) : Page :=
  mkPage d 0%Q [] ∅ [] 0%N [] 0 [] [].

(** *** Element access *)

(** Mutation of element [n] in place. *)
Definition update (n : nat) (f : Element → Element) (p : Page) : Page :=
  with_dom (alter f n) p.

Definition has_class (p : Page) (n : nat) (c : string) : bool :=
  match dom p !! n with
  | Some e => classList_contains c (classList e)
  | None => false
  end.

Definition getAttribute (p : Page) (n : nat) (k : string) : option string :=
  e ← dom p !! n; attributes e !! k.

Definition hasAttribute (p : Page) (n : nat) (k : string) : bool :=
  bool_decide (is_Some (getAttribute p n k)).

Definition get_innerHTML (p : Page) (n : nat) : string :=
  default "" (innerHTML <$> dom p !! n).

Definition get_style (p : Page) (n : nat) (k : string) : option string :=
  e ← dom p !! n; style e !! k.

(** *** Selectors *)

(** The script only uses class selectors, alone or in a comma list: a
    selector is the list of its class names ([.reveal-up, .reveal-left]
    is [["reveal-up"; "reveal-left"]]). *)
Definition matches (sel : list string) (e : Element) : bool :=
  existsb (λ c, classList_contains c (classList e)) sel.

Fixpoint select_from (sel : list string) (i : nat) (d : list Element) : list nat :=
  match d with
  | [] => []
  | e :: d' => if matches sel e then i :: select_from sel (S i) d'
               else select_from sel (S i) d'
  end.

Definition querySelectorAll (sel : list string) (p : Page) : list nat :=
  select_from sel 0 (dom p).

Definition querySelector (sel : list string) (p : Page) : option nat :=
  head (querySelectorAll sel p).

(** [el.children], in document order. *)
Fixpoint children_from (c : nat) (i : nat) (d : list Element) : list nat :=
  match d with
  | [] => []
  | e :: d' => if bool_decide (parentNode e = Some c) then i :: children_from c (S i) d'
               else children_from c (S i) d'
  end.

Definition children (p : Page) (c : nat) : list nat := children_from c 0 (dom p).

(** The element itself, then its parent, and so on up to the root. *)
Fixpoint inclusive_ancestors (fuel : nat) (d : list Element) (n : nat) : list nat :=
  match fuel with
  | O => []
  | S fuel' =>
      match d !! n with
      | None => []
      | Some e =>
          n :: match parentNode e with
               | Some m => inclusive_ancestors fuel' d m
               | None => []
               end
      end
  end.

Definition path (p : Page) (n : nat) : list nat :=
  inclusive_ancestors (length (dom p)) (dom p) n.

(** [a.contains(b)] *)
Definition contains (p : Page) (a b : nat) : bool := bool_decide (a ∈ path p b).

(** [el.closest(sel)] *)
Definition closest (sel : list string) (p : Page) (n : nat) : option nat :=
  head (filter (λ m, Is_true (match dom p !! m with
                               | Some e => matches sel e
                               | None => false
                               end)) (path p n)).

Definition addEventListener (t : EventTarget) (ty : string) (h : Handler) (p : Page) : Page :=
  with_listeners (λ ls, ls ++ [mkListener t ty h]) p.

(** ** Completions *)

(** A function of the script either returns or throws.  The only throw
    the script could meet is a method call on [null]. *)
Inductive Completion (A : Type) :=
| Normal (a : A)
| Throw (e : string).
Arguments Normal {A} a.
Arguments Throw {A} e.

Global Instance Completion_ret : MRet Completion := λ A a, Normal a.

Global Instance Completion_bind : MBind Completion := λ A B k m,
  match m with
  | Normal a => k a
  | Throw e => Throw e
  end.

(** Using a query result as an object. *)
Definition deref (r : option nat) : Completion nat :=
  match r with
  | Some n => Normal n
  | None => Throw "TypeError"
  end.

(** ** 1. Sticky header *)

Definition handleScroll (header : nat) (p : Page) : Page :=
  if Qlt_le_dec CONFIG.scrollThreshold (scrollY p)
  then update header (with_classList (classList_add "header-scrolled")) p
  else update header (with_classList (classList_remove "header-scrolled")) p.

Definition initStickyHeader (p : Page) : Completion Page :=
  let header := querySelector ["header"] p in
  if bool_decide (header = None) then Normal p
  else
    h ← deref header;
    Normal (addEventListener Window "scroll" (HandleScroll h) p).

(** ** 2. Mobile menu *)

(** [setAttribute] stringifies its argument. *)
Definition Boolean_toString (b : bool) : string := if b then "true" else "false".

Definition toggleMenu (menuBtn navList : nat) (p : Page) : Page :=
  let isActive := has_class p navList "active" in
  let p1 := update navList (with_classList (classList_toggle "active")) p in
  let p2 := update menuBtn (with_classList (classList_toggle "active")) p1 in
  update menuBtn (with_attribute "aria-expanded" (Boolean_toString (negb isActive))) p2.

Definition initMobileMenu (p : Page) : Completion Page :=
  let menuBtn := querySelector ["mobile-toggle"] p in
  let navList := querySelector ["nav-list"] p in
  let navLinks := querySelectorAll ["nav-link"] p in
  if bool_decide (menuBtn = None) || bool_decide (navList = None) then Normal p
  else
    b ← deref menuBtn;
    n ← deref navList;
    let p1 := addEventListener (Node b) "click" (ToggleMenu b n) p in
    let p2 := foldl (λ q link, addEventListener (Node link) "click" (NavLinkClick b n) q)
                    p1 navLinks in
    Normal (addEventListener Document "click" (DocumentClick b n) p2).

(** ** 4. Number counter *)

(** It stands before the scroll reveal here, whose callback starts it. *)

Definition digit_value (a : ascii) : option N :=
  let n := N_of_ascii a in
  if ((48 <=? n) && (n <=? 57))%N then Some (n - 48)%N else None.

Fixpoint parse_digits (acc : N) (s : string) : option N :=
  match s with
  | EmptyString => Some acc
  | String a s' => d ← digit_value a; parse_digits (10 * acc + d)%N s'
  end.

(** Unary [+] on an attribute value.  [null] and the empty string are 0
    and a string of decimal digits is the number it spells, exactly,
    however long.  Any other string is read as NaN here: signs,
    fractions, exponents and blanks are outside the fragment this
    development covers. *)
Definition ToNumber (v : option string) : option N :=
  match v with
  | None => Some 0%N
  | Some s => parse_digits 0 s
  end.

(** Number-to-string conversion of an integer-valued number. *)
Definition Number_toString (x : option Z) : string :=
  match x with
  | Some z => pretty z
  | None => "NaN"
  end.

(** [!startTimestamp]: [null] and [0] are falsy. *)
Definition falsy (t : option Q) : bool :=
  match t with
  | None => true
  | Some q => Qeq_bool q 0
  end.

Definition requestAnimationFrame (c : Step) (p : Page) : Page :=
  with_frameRequests (λ q, q ++ [c]) p.

Definition progress_at (start timestamp : Q) : Q :=
  Qmin ((timestamp - start) / CONFIG.counterDuration) 1.

Definition easeOutQuart (progress : Q) : Q := 1 - (1 - progress) ^ 4.

(** [Math.floor(easeProgress * target)] *)
Definition eased_value (easeProgress : Q) (target : option N) : option Z :=
  (λ t, Qfloor (easeProgress * inject_Z (Z.of_N t))) <$> target.

(** [if (!startTimestamp) startTimestamp = timestamp]: the value of the
    captured variable after this line. *)
Definition latch (startTimestamp : option Q) (timestamp : Q) : Q :=
  match startTimestamp with
  | Some s => if falsy (Some s) then timestamp else s
  | None => timestamp
  end.

Definition step (c : Step) (timestamp : Q) (p : Page) : Page :=
  let start := latch (startTimestamp c) timestamp in
  let progress := progress_at start timestamp in
  let easeProgress := easeOutQuart progress in
  let p1 := update (step_obj c)
              (with_innerHTML (Number_toString (eased_value easeProgress (step_target c))
                               +:+ step_suffix c)) p in
  if Qlt_le_dec progress 1
  then requestAnimationFrame
         (mkStep (step_obj c) (step_target c) (step_suffix c) (Some start)) p1
  else update (step_obj c)
         (with_innerHTML (Number_toString (Z.of_N <$> step_target c) +:+ step_suffix c)) p1.

Definition animateValue (obj : nat) (p : Page) : Page :=
  let target := ToNumber (getAttribute p obj "data-count") in
  let suffix := default "" (getAttribute p obj "data-suffix") in
  requestAnimationFrame (mkStep obj target suffix None) p.

(** ** 3. Scroll reveal *)

(** The observer's options ([root: null], [rootMargin: '0px'],
    [threshold: 0.15]) decide when the browser reports an element as
    intersecting.  The model takes the browser's reports as given: an
    entry says which target it is about and whether it intersects. *)

Record Entry := mkEntry {
  entry_target : nat;
  isIntersecting : bool
}.

Definition observe (n : nat) (p : Page) : Page := with_observed (λ s, s ∪ {[n]}) p.
Definition unobserve (n : nat) (p : Page) : Page := with_observed (λ s, s ∖ {[n]}) p.

(** The body of the [entries.forEach] in [revealCallback]. *)
Definition revealEntry (p : Page) (entry : Entry) : Page :=
  if isIntersecting entry then
    let p1 := update (entry_target entry) (with_classList (classList_add "visible")) p in
    let p2 := if hasAttribute p1 (entry_target entry) "data-count"
              then animateValue (entry_target entry) p1 else p1 in
    unobserve (entry_target entry) p2
  else p.

Definition revealCallback (entries : list Entry) (p : Page) : Page :=
  foldl revealEntry p entries.

(** [index * CONFIG.staggerDelay] *)
Definition staggerDelayOf (index : nat) : N := (N.of_nat index * CONFIG.staggerDelay)%N.

(** The body of the inner [forEach((child, index) => ...)]. *)
Definition staggerChild (p : Page) (index child : nat) : Page :=
  let p1 := update child (with_classList (classList_add "reveal-up")) p in
  let p2 := update child
              (with_style "transitionDelay" (pretty (staggerDelayOf index) +:+ "ms")) p1 in
  observe child p2.

(** [Array.prototype.forEach] with the index argument. *)
Fixpoint forEach_from {St A : Type} (f : St → nat → A → St) (i : nat) (l : list A) (s : St) : St :=
  match l with
  | [] => s
  | x :: l' => forEach_from f (S i) l' (f s i x)
  end.

Definition staggerContainer (p : Page) (container : nat) : Page :=
  forEach_from staggerChild 0 (children p container) p.

Definition initScrollReveal (p : Page) : Completion Page :=
  let revealElements := querySelectorAll ["reveal-up"; "reveal-left"; "reveal-right"] p in
  let staggerContainers := querySelectorAll ["stagger-grid"] p in
  let p1 := foldl (λ q el, observe el q) p revealElements in
  Normal (foldl staggerContainer p1 staggerContainers).

(** ** 5. Video mockup *)

Definition quote : string := String (ascii_of_nat 34) EmptyString.

Definition loadingLabel : string :=
  "<span style=" +:+ quote +:+ "font-size: 0.8rem;" +:+ quote +:+ ">Carregando...</span>".

Definition placeholderNotice : string :=
  "Neste mockup, o vídeo abriria em um modal ou player overlay.".

(** The timer queue is kept in firing order: by due time, and among
    equal due times by age. *)
Fixpoint enqueue (t : Timer) (q : list Timer) : list Timer :=
  match q with
  | [] => [t]
  | t' :: q' => if (timer_due t <? timer_due t')%N then t :: q else t' :: enqueue t q'
  end.

Definition setTimeout (cb : TimerCallback) (delay : N) (p : Page) : Page :=
  with_nextTimer (S (nextTimer p))
    (with_timers (enqueue (mkTimer (nextTimer p) (clock p + delay)%N cb)) p).

(** The click listener of a play button.  [e.preventDefault()] leaves the
    page state as it is. *)
Definition playClick (btn : nat) (p : Page) : Page :=
  let card := closest ["video-card"] p btn in
  let p1 := update btn (with_style "transform" "scale(0.9)") p in
  let p2 := setTimeout (ResetTransform btn) 150 p1 in
  let title := match card with
               | Some c => default "undefined" (getAttribute p2 c "data-title")
               | None => "Demo"
               end in
  let p3 := console_log ["%c ▶ Play Video: " +:+ title;
                         "color: #e50914; font-weight: bold;"] p2 in
  let originalText := get_innerHTML p3 btn in
  let p4 := update btn (with_innerHTML loadingLabel) p3 in
  setTimeout (RestoreLabel btn originalText) 800 p4.

(** Running a timer callback. *)
Definition fire (cb : TimerCallback) (p : Page) : Page :=
  match cb with
  | ResetTransform btn => update btn (with_style "transform" "scale(1)") p
  | RestoreLabel btn originalText =>
      alert placeholderNotice (update btn (with_innerHTML originalText) p)
  end.

Definition initVideoMockup (p : Page) : Completion Page :=
  let playButtons := querySelectorAll ["video-play-btn"] p in
  Normal (foldl (λ q btn, addEventListener (Node btn) "click" (PlayClick btn) q)
                p playButtons).

(** ** Initialisation *)

Definition loadedMessage : list string :=
  ["NØRAN UI Loaded | Creative Interaction Active"].

Definition init (p : Page) : Completion Page :=
  p1 ← initStickyHeader p;
  p2 ← initMobileMenu p1;
  p3 ← initScrollReveal p2;
  p4 ← initVideoMockup p3;
  Normal (console_log loadedMessage p4).

(** ** The browser side: events *)

Definition run_handler (h : Handler) (target : nat) (p : Page) : Page :=
  match h with
  | HandleScroll header => handleScroll header p
  | ToggleMenu menuBtn navList => toggleMenu menuBtn navList p
  | NavLinkClick menuBtn navList =>
      if has_class p navList "active" then toggleMenu menuBtn navList p else p
  | DocumentClick menuBtn navList =>
      if negb (contains p navList target) && negb (contains p menuBtn target)
         && has_class p navList "active"
      then toggleMenu menuBtn navList p else p
  | PlayClick btn => playClick btn p
  end.

Definition listeners_for (p : Page) (ty : string) (t : EventTarget) : list Handler :=
  listener_handler <$>
    filter (λ l, listener_target l = t ∧ listener_type l = ty) (listeners p).

(** A click bubbles from its target through the ancestors to the
    document and the window; on each, the listeners run in the order
    they were added. *)
Definition propagation (p : Page) (target : nat) : list EventTarget :=
  (Node <$> path p target) ++ [Document; Window].

Definition click (target : nat) (p : Page) : Page :=
  foldl (λ q h, run_handler h target q) p
        (propagation p target ≫= listeners_for p "click").

Definition scroll (y : Q) (p : Page) : Page :=
  foldl (λ q h, run_handler h 0 q) (with_scrollY y p)
        (listeners_for p "scroll" Window).

(** One rendering frame: the callbacks requested so far run in request
    order with the frame's timestamp; what they request goes to the next
    frame. *)
Definition animationFrame (timestamp : Q) (p : Page) : Page :=
  foldl (λ q c, step c timestamp q) (with_frameRequests (λ _, []) p) (frameRequests p).

(** Time passes: the timers that have come due fire, in queue order. *)
Fixpoint run_due (deadline : N) (q : list Timer) (p : Page) : Page :=
  match q with
  | [] => with_timers (λ _, []) p
  | t :: q' =>
      if (timer_due t <=? deadline)%N
      then run_due deadline q' (fire (timer_callback t) p)
      else with_timers (λ _, t :: q') p
  end.

Definition elapse (dt : N) (p : Page) : Page :=
  with_clock (clock p + dt)%N (run_due (clock p + dt)%N (timers p) p).

Inductive Event :=
| Scroll (y : Q)
| Click (target : nat)
| Intersection (entries : list Entry)
| AnimationFrame (timestamp : Q)
| Elapse (dt : N).

Definition dispatch (p : Page) (ev : Event) : Page :=
  match ev with
  | Scroll y => scroll y p
  | Click target => click target p
  | Intersection entries => revealCallback entries p
  | AnimationFrame timestamp => animationFrame timestamp p
  | Elapse dt => elapse dt p
  end.

Definition run (evs : list Event) (p : Page) : Page := foldl dispatch p evs.


(** * Notions used to state the properties *)

(** What the stagger code leaves on a child. *)
Definition staggered (p : Page) (index child : nat) : Prop :=
  has_class p child "reveal-up" = true
  ∧ get_style p child "transitionDelay" = Some (pretty (staggerDelayOf index) +:+ "ms")
  ∧ child ∈ observed p.


(** The text of [obj] after each frame in turn. *)
Fixpoint play_texts (obj : nat) (frames : list Q) (p : Page) : list string :=
  match frames with
  | [] => []
  | timestamp :: frames' =>
      let p' := animationFrame timestamp p in
      get_innerHTML p' obj :: play_texts obj frames' p'
  end.










Definition counterPage : Page :=
  load [mkElement None {["reveal-up"]}
          {["data-count" := "50"; "data-suffix" := "%"]} "0" ∅].



(** The spec's formula for the number shown at time [now] of an animation
    that started at [start]:
    [floor((1 - (1-p)^4) * target)] with
    [p = clamp((now - start) / duration, 0, 1)] and [duration = 2000]. *)
Definition spec_clamp (x lo hi : Q) : Q := Qmax lo (Qmin x hi).

Definition spec_displayed (start now : Q) (target : N) : Z :=
  Qfloor ((1 - (1 - spec_clamp ((now - start) / 2000) 0 1) ^ 4)
          * inject_Z (Z.of_N target)).

(** The targets for which the body of the [if (entry.isIntersecting)] in
    [revealCallback] runs, in the order of the entries. *)
Definition revealed_in (entries : list Entry) : list nat :=
  entry_target <$> filter (λ entry, isIntersecting entry = true) entries.




(** [q] comes from [p] by steps that leave the observer's targets alone
    and take the class [visible] from no element. *)
Definition calm (p q : Page) : Prop :=
  observed q = observed p
  ∧ length (dom q) = length (dom p)
  ∧ ∀ n, has_class p n "visible" = true → has_class q n "visible" = true.

(** What happens around a play button after a click: further clicks on
    play buttons, and time passing. *)
Inductive Activity :=
| Press (btn : nat)
| Wait (dt : N).

Definition perform (p : Page) (a : Activity) : Page :=
  match a with
  | Press btn => playClick btn p
  | Wait dt => elapse dt p
  end.

Fixpoint elapsed (acts : list Activity) : N :=
  match acts with
  | [] => 0
  | Press _ :: acts' => elapsed acts'
  | Wait dt :: acts' => dt + elapsed acts'
  end.

(** Every press in [acts], which start at time [now], comes after time
    [t0]. *)
Fixpoint presses_after (t0 now : N) (acts : list Activity) : Prop :=
  match acts with
  | [] => True
  | Press _ :: acts' => (t0 < now)%N ∧ presses_after t0 now acts'
  | Wait dt :: acts' => presses_after t0 (now + dt) acts'
  end.

Definition is_restore (t : Timer) : bool :=
  match timer_callback t with
  | RestoreLabel _ _ => true
  | ResetTransform _ => false
  end.

(** The notices still to come from the timers in a queue. *)
Definition pending_notices (q : list Timer) : nat :=
  length (filter (λ t, is_restore t = true) q).

Definition notices (n : nat) : list string := replicate n placeholderNotice.

(** No timer of the script is set further ahead than 800. *)
Definition timers_within (p : Page) : Prop :=
  Forall (λ t, (timer_due t ≤ clock p + 800)%N) (timers p).

(** The timer [ours], due at [D], waits in the queue of [q]: what stands
    before it is due by [D]; what stands behind it does not restore a
    label by [D]; [base] is what [alert] will have shown once the timers
    before [ours] have fired. *)
Definition awaiting (ours : Timer) (D : N) (base : list string) (q : Page) : Prop :=
  ∃ pre post,
    timers q = pre ++ ours :: post
    ∧ Forall (λ t, (timer_due t ≤ D)%N) pre
    ∧ Forall (λ t, is_restore t = false ∨ (D < timer_due t)%N) post
    ∧ alerts q ++ notices (pending_notices pre) = base.

(** The callbacks of the timers in [q] run one after the other. *)
Definition fire_all (p : Page) (q : list Timer) : Page :=
  foldl (λ p' t, fire (timer_callback t) p') p q.

Definition playPage : Page :=
  load [mkElement None {["video-card"]} {["data-title" := "Intro"]} "" ∅;
        mkElement (Some 0) {["video-play-btn"]} ∅ "Play" ∅].

(** The parent of every element, in document order. *)
Definition parents (p : Page) : list (option nat) := parentNode <$> dom p.


(** [q] comes from [p] by steps that move no element and add no
    listener. *)
Definition steady (p q : Page) : Prop :=
  parents q = parents p ∧ listeners q = listeners p.




Definition menuPage : list Element :=
  [mkElement None {["header"]} ∅ "" ∅;
   mkElement (Some 0) {["mobile-toggle"]} ∅ "" ∅;
   mkElement (Some 1) ∅ ∅ "=" ∅;
   mkElement (Some 0) {["nav-list"]} ∅ "" ∅;
   mkElement (Some 3) {["nav-link"]} ∅ "Home" ∅].

(** ** Footprints *)

(** [e'] differs from [e] at most in the classes [cls], the attributes
    [attrs], the style properties [sty] and, when [html] is set, the
    inner HTML. *)
Definition differs_only (cls attrs : list string) (html : bool) (sty : list string)
    (e e' : Element) : Prop :=
  parentNode e' = parentNode e
  ∧ (∀ c, c ∉ cls → (c ∈ classList e' ↔ c ∈ classList e))
  ∧ (∀ k, k ∉ attrs → attributes e' !! k = attributes e !! k)
  ∧ (html = false → innerHTML e' = innerHTML e)
  ∧ (∀ k, k ∉ sty → style e' !! k = style e !! k).

(** Every element of [q] stands in [R] to the element of [p] at the same
    place. *)
Definition lifts (R : Element → Element → Prop) (p q : Page) : Prop :=
  Forall2 R (dom p) (dom q).

(** What an event may write on the elements. *)
Definition footprint (ev : Event) : Element → Element → Prop :=
  match ev with
  | Scroll _ => differs_only ["header-scrolled"] [] false []
  | Click _ => differs_only ["active"] ["aria-expanded"] true ["transform"]
  | Intersection _ => differs_only ["visible"] [] false []
  | AnimationFrame _ => differs_only [] [] true []
  | Elapse _ => differs_only [] [] true ["transform"]
  end.

(** The listeners as [init] installs them around the menu anchors
    [menuBtn] and [navList]: [handleScroll] listens for scroll events
    only, and every other handler for clicks only. *)
Definition wired_listener (menuBtn navList : nat) (l : Listener) : Prop :=
  match listener_handler l with
  | HandleScroll _ => listener_type l = "scroll"
  | ToggleMenu b n | NavLinkClick b n | DocumentClick b n =>
      listener_type l = "click" ∧ b = menuBtn ∧ n = navList
  | PlayClick _ => listener_type l = "click"
  end.

Definition wired (menuBtn navList : nat) (p : Page) : Prop :=
  Forall (wired_listener menuBtn navList) (listeners p).

(** The page once the script has run on the document [d]. *)
Definition boot (d : list Element) : Page :=
  match init (load d) with
  | Normal p => p
  | Throw _ => load d
  end.

(** [q] has the clock, the timers, the frame requests, the scroll offset
    and the alerts of [p]. *)
Definition same_pending (p q : Page) : Prop :=
  clock q = clock p ∧ timers q = timers p ∧ nextTimer q = nextTimer p
  ∧ frameRequests q = frameRequests p ∧ scrollY q = scrollY p
  ∧ alerts q = alerts p.

(** The toggle button shows what the menu is: it has the class [active]
    exactly when the navigation list has it, and its [aria-expanded] says
    so. *)
Definition menu_in_step (menuBtn navList : nat) (p : Page) : Prop :=
  has_class p menuBtn "active" = has_class p navList "active"
  ∧ getAttribute p menuBtn "aria-expanded"
    = Some (Boolean_toString (has_class p navList "active")).

(** The click handlers other than the toggle's own. *)
Definition closing_handler (menuBtn navList : nat) (h : Handler) : Prop :=
  h = NavLinkClick menuBtn navList
  ∨ h = DocumentClick menuBtn navList
  ∨ ∃ btn, h = PlayClick btn.

(** [q] has, besides, the console of [p]. *)
Definition quiet (p q : Page) : Prop := same_pending p q ∧ console q = console p.

(** A document whose toggle button declares the menu closed. *)
Definition labelledMenuPage : list Element :=
  [mkElement None {["header"]} ∅ "" ∅;
   mkElement (Some 0) {["mobile-toggle"]} {["aria-expanded" := "false"]} "" ∅;
   mkElement (Some 1) ∅ ∅ "=" ∅;
   mkElement (Some 0) {["nav-list"]} ∅ "" ∅;
   mkElement (Some 3) {["nav-link"]} ∅ "Home" ∅;
   mkElement None ∅ ∅ "Welcome" ∅].

(** The callback [animateValue] hands to the first frame for [obj]. *)
Definition counter_of (p : Page) (obj : nat) : Step :=
  mkStep obj (ToNumber (getAttribute p obj "data-count"))
         (default "" (getAttribute p obj "data-suffix")) None.

(** The revealed targets that carry a [data-count]. *)
Definition counted_in (p : Page) (entries : list Entry) : list nat :=
  filter (λ n, hasAttribute p n "data-count" = true) (revealed_in entries).

(** The number of presses among the activities. *)
Fixpoint presses (acts : list Activity) : nat :=
  match acts with
  | [] => 0
  | Press _ :: acts' => S (presses acts')
  | Wait _ :: acts' => presses acts'
  end.

(** The queue is in firing order, and every timer in it is still to
    come. *)
Definition timers_ahead (p : Page) : Prop :=
  StronglySorted (λ a b, (timer_due a ≤ timer_due b)%N) (timers p)
  ∧ Forall (λ t, (clock p < timer_due t)%N) (timers p).


(** * Properties *)

(** ** Basic facts about element updates *)

Lemma lookup_update_eq p n f : dom (update n f p) !! n = f <$> dom p !! n.
Proof. apply list_lookup_alter_eq. Qed.

Lemma lookup_update_ne p n m f : n ≠ m → dom (update n f p) !! m = dom p !! m.
Proof. intros. by apply list_lookup_alter_ne. Qed.

Lemma length_update p n f : length (dom (update n f p)) = length (dom p).
Proof. apply length_alter. Qed.

Lemma update_update p n f g : update n f (update n g p) = update n (f ∘ g) p.
Proof.
  destruct p. unfold update, with_dom. simpl. f_equal.
  apply list_alter_alter_eq.
Qed.

Lemma alter_pointwise {A} (f g : A → A) (l : list A) (i : nat) :
  (∀ x, f x = g x) → alter f i l = alter g i l.
Proof.
  intros Hfg. revert i. induction l as [|x l IH]; intros [|i]; simpl; try done.
  - by rewrite Hfg.
  - f_equal. apply IH.
Qed.

Lemma update_ext p n f g : (∀ e, f e = g e) → update n f p = update n g p.
Proof.
  intros Hfg. destruct p. unfold update, with_dom. simpl. f_equal.
  by apply alter_pointwise.
Qed.

Lemma classList_contains_add c c' cs :
  classList_contains c (classList_add c' cs) = bool_decide (c = c') || classList_contains c cs.
Proof.
  unfold classList_contains, classList_add.
  apply eq_true_iff_eq.
  rewrite orb_true_iff, !bool_decide_eq_true. set_solver.
Qed.

Lemma classList_contains_remove c c' cs :
  classList_contains c (classList_remove c' cs) = negb (bool_decide (c = c')) && classList_contains c cs.
Proof.
  unfold classList_contains, classList_remove.
  apply eq_true_iff_eq.
  rewrite andb_true_iff, negb_true_iff, bool_decide_eq_false, !bool_decide_eq_true.
  set_solver.
Qed.

Lemma has_class_update_eq p n f c :
  has_class (update n f p) n c =
  match dom p !! n with
  | Some e => classList_contains c (classList (f e))
  | None => false
  end.
Proof. unfold has_class. rewrite lookup_update_eq. by destruct (dom p !! n). Qed.

Lemma has_class_update_ne p n m f c :
  n ≠ m → has_class (update n f p) m c = has_class p m c.
Proof. intros. unfold has_class. by rewrite lookup_update_ne. Qed.

(** ** Sticky header *)

Lemma handleScroll_twice h p : handleScroll h (handleScroll h p) = handleScroll h p.
Proof.
  unfold handleScroll.
  destruct (Qlt_le_dec CONFIG.scrollThreshold (scrollY p)) as [Hlt|Hle]; simpl;
    destruct (Qlt_le_dec CONFIG.scrollThreshold (scrollY p)) as [Hlt'|Hle'];
    try (exfalso; lra);
    rewrite update_update; apply update_ext; intros [? cs ? ? ?];
    unfold with_classList, classList_add, classList_remove; simpl; f_equal; set_solver.
Qed.

Lemma handleScroll_iter h p k : Nat.iter (S k) (handleScroll h) p = handleScroll h p.
Proof.
  induction k as [|k IH]; [done|].
  change (Nat.iter (S (S k)) (handleScroll h) p)
    with (handleScroll h (Nat.iter (S k) (handleScroll h) p)).
  rewrite IH. apply handleScroll_twice.
Qed.

(** C6. After [handleScroll] has run at scroll offset [s], the header has
    the class [header-scrolled] exactly when [s > 50]; running the handler
    again at that offset, any number of times, gives the same page. *)
Theorem handleScroll_threshold (p : Page) (header : nat) (s : Q) (k : nat) :
  is_Some (dom p !! header) →
  (has_class (handleScroll header (with_scrollY s p)) header "header-scrolled" = true
     ↔ (50 < s)%Q)
  ∧ Nat.iter (S k) (handleScroll header) (with_scrollY s p)
    = handleScroll header (with_scrollY s p).
Proof.
  intros [e He]. split; [|apply handleScroll_iter].
  unfold handleScroll. simpl.
  destruct (Qlt_le_dec CONFIG.scrollThreshold s) as [Hlt|Hle];
    rewrite has_class_update_eq; simpl; rewrite He; simpl.
  - rewrite classList_contains_add, bool_decide_true by done. simpl.
    split; [intros _; exact Hlt|done].
  - rewrite classList_contains_remove, bool_decide_true by done. simpl.
    split; [done|]. unfold CONFIG.scrollThreshold in Hle. intros Hs. exfalso. lra.
Qed.

Lemma handleScroll_threshold_witness :
  let p := load [mkElement None {["header"]} ∅ "" ∅] in
  (has_class (handleScroll 0 (with_scrollY 51 p)) 0 "header-scrolled" = true ↔ (50 < 51)%Q)
  ∧ Nat.iter 3 (handleScroll 0) (with_scrollY 51 p) = handleScroll 0 (with_scrollY 51 p).
Proof.
  apply (handleScroll_threshold (load [mkElement None {["header"]} ∅ "" ∅]) 0 51 2).
  simpl. eauto.
Defined.

(** ** Missing anchors *)

Lemma initStickyHeader_absent p :
  querySelector ["header"] p = None → initStickyHeader p = Normal p.
Proof. intros H. unfold initStickyHeader. rewrite H. done. Qed.

Lemma initMobileMenu_absent p :
  querySelector ["mobile-toggle"] p = None ∨ querySelector ["nav-list"] p = None →
  initMobileMenu p = Normal p.
Proof.
  intros [H|H]; unfold initMobileMenu; rewrite H; simpl; [done|].
  by rewrite orb_true_r.
Qed.

(** [initStickyHeader] never throws, and leaves the elements alone. *)
Lemma initStickyHeader_normal p :
  ∃ p', initStickyHeader p = Normal p' ∧ dom p' = dom p.
Proof.
  unfold initStickyHeader.
  destruct (querySelector ["header"] p) as [h|]; simpl; eauto.
Qed.

(** C9. A unit whose anchors are missing does nothing at all.  Without a
    [.header], [initStickyHeader] returns normally with the page as it was
    (same listeners, same elements, same console), and [init] is what the
    other units make of the page.  Without a [.mobile-toggle] or without a
    [.nav-list], the same holds of [initMobileMenu]. *)
Theorem missing_anchor_silent (p : Page) :
  (querySelector ["header"] p = None →
     initStickyHeader p = Normal p
     ∧ init p = (p2 ← initMobileMenu p;
                 p3 ← initScrollReveal p2;
                 p4 ← initVideoMockup p3;
                 Normal (console_log loadedMessage p4)))
  ∧ (querySelector ["mobile-toggle"] p = None ∨ querySelector ["nav-list"] p = None →
     initMobileMenu p = Normal p
     ∧ init p = (p1 ← initStickyHeader p;
                 p3 ← initScrollReveal p1;
                 p4 ← initVideoMockup p3;
                 Normal (console_log loadedMessage p4))).
Proof.
  split.
  - intros H. split; [by apply initStickyHeader_absent|].
    unfold init. by rewrite initStickyHeader_absent.
  - intros H. split; [by apply initMobileMenu_absent|].
    unfold init. destruct (initStickyHeader_normal p) as (p1 & -> & Hdom). simpl.
    rewrite initMobileMenu_absent; [done|].
    unfold querySelector, querySelectorAll in *. by rewrite Hdom.
Qed.

Lemma missing_anchor_silent_witness :
  let p := load [mkElement None {["stagger-grid"]} ∅ "" ∅] in
  initStickyHeader p = Normal p ∧ initMobileMenu p = Normal p.
Proof.
  destruct (missing_anchor_silent (load [mkElement None {["stagger-grid"]} ∅ "" ∅]))
    as [Hheader Hmenu].
  split.
  - apply Hheader. reflexivity.
  - apply Hmenu. left. reflexivity.
Defined.

(** ** Scroll reveal: the stagger groups *)

Section Children.
Context (c : nat).

Lemma children_from_ge i d x : x ∈ children_from c i d → i ≤ x.
Proof.
  revert i. induction d as [|e d IH]; intros i; simpl; [by rewrite elem_of_nil|].
  case_bool_decide.
  - rewrite elem_of_cons. intros [->|Hx]; [lia|]. apply IH in Hx. lia.
  - intros Hx. apply IH in Hx. lia.
Qed.

Lemma children_from_NoDup i d : NoDup (children_from c i d).
Proof.
  revert i. induction d as [|e d IH]; intros i; simpl; [constructor|].
  case_bool_decide; [|apply IH].
  apply NoDup_cons. split; [|apply IH].
  intros Hx. apply children_from_ge in Hx. lia.
Qed.

Lemma children_from_parent i d x :
  x ∈ children_from c i d → ∃ e, d !! (x - i) = Some e ∧ parentNode e = Some c.
Proof.
  revert i. induction d as [|e d IH]; intros i; simpl; [by rewrite elem_of_nil|].
  assert (Htail : x ∈ children_from c (S i) d →
                  ∃ e0, (e :: d) !! (x - i) = Some e0 ∧ parentNode e0 = Some c).
  { intros Hx. pose proof (children_from_ge _ _ _ Hx) as Hge.
    destruct (IH _ Hx) as (e0 & He0 & Hp). exists e0. split; [|done].
    replace (x - i) with (S (x - S i)) by lia. done. }
  case_bool_decide as Hpar; [|done].
  rewrite elem_of_cons. intros [->|Hx]; [|by apply Htail].
  exists e. by rewrite Nat.sub_diag.
Qed.

Lemma children_from_alter f n i d :
  (∀ e, parentNode (f e) = parentNode e) →
  children_from c i (alter f n d) = children_from c i d.
Proof.
  intros Hf. unfold alter. revert n i.
  induction d as [|e d IH]; intros [|n] i; simpl; try done.
  - rewrite Hf. case_bool_decide; done.
  - rewrite IH. done.
Qed.
End Children.

Lemma children_NoDup p c : NoDup (children p c).
Proof. apply children_from_NoDup. Qed.

Lemma children_parent p c x :
  x ∈ children p c → ∃ e, dom p !! x = Some e ∧ parentNode e = Some c.
Proof.
  intros Hx. apply children_from_parent in Hx.
  by rewrite Nat.sub_0_r in Hx.
Qed.

Lemma children_disjoint p c c' x : x ∈ children p c → x ∈ children p c' → c = c'.
Proof.
  intros (e & He & Hp)%children_parent (e' & He' & Hp')%children_parent. congruence.
Qed.

Lemma children_staggerChild p i x c : children (staggerChild p i x) c = children p c.
Proof.
  unfold children, staggerChild. simpl.
  rewrite !children_from_alter; done.
Qed.

Lemma children_forEach_stagger l k p c :
  children (forEach_from staggerChild k l p) c = children p c.
Proof.
  revert k p. induction l as [|x l IH]; intros k p; simpl; [done|].
  by rewrite IH, children_staggerChild.
Qed.

Lemma staggerChild_sets p i x :
  is_Some (dom p !! x) → staggered (staggerChild p i x) i x.
Proof.
  intros [e He]. unfold staggered, staggerChild, has_class, get_style. simpl.
  rewrite !list_lookup_alter_eq, He. simpl. split_and!.
  - rewrite classList_contains_add. by rewrite bool_decide_true.
  - by rewrite lookup_insert_eq.
  - set_solver.
Qed.

Lemma staggerChild_keeps p i x j y :
  x ≠ y → staggered p j y → staggered (staggerChild p i x) j y.
Proof.
  intros Hne (Hc & Hs & Ho). unfold staggered, staggerChild, has_class, get_style in *.
  simpl. rewrite !list_lookup_alter_ne by done. split_and!; [done..|set_solver].
Qed.

Lemma forEach_stagger_keeps l k p j y :
  y ∉ l → staggered p j y → staggered (forEach_from staggerChild k l p) j y.
Proof.
  revert k p. induction l as [|x l IH]; intros k p Hy Hst; simpl; [done|].
  apply not_elem_of_cons in Hy as [Hne Hy].
  apply IH; [done|]. apply staggerChild_keeps; auto.
Qed.

Lemma lookup_staggerChild_is_Some p i x y :
  is_Some (dom (staggerChild p i x) !! y) ↔ is_Some (dom p !! y).
Proof.
  unfold staggerChild. simpl. rewrite !lookup_lt_is_Some, !length_alter. done.
Qed.

Lemma forEach_stagger_sets l k p i y :
  NoDup l → (∀ x, x ∈ l → is_Some (dom p !! x)) → l !! i = Some y →
  staggered (forEach_from staggerChild k l p) (k + i) y.
Proof.
  revert k p i. induction l as [|x l IH]; intros k p i Hnd Hdom Hi; [done|].
  apply NoDup_cons in Hnd as [Hx Hnd]. simpl.
  destruct i as [|i]; simpl in Hi.
  - injection Hi as ->. rewrite Nat.add_0_r.
    apply forEach_stagger_keeps; [done|].
    apply staggerChild_sets, Hdom. by left.
  - replace (k + S i) with (S k + i) by lia.
    apply IH; [done| |done].
    intros z Hz. apply lookup_staggerChild_is_Some, Hdom. by right.
Qed.

Lemma staggerContainer_sets p c i y :
  children p c !! i = Some y → staggered (staggerContainer p c) i y.
Proof.
  intros Hi. unfold staggerContainer.
  apply (forEach_stagger_sets _ 0 p i y); [apply children_NoDup| |done].
  intros x (e & He & _)%children_parent. eauto.
Qed.

Lemma staggerContainer_keeps p c j y :
  y ∉ children p c → staggered p j y → staggered (staggerContainer p c) j y.
Proof. apply forEach_stagger_keeps. Qed.

Lemma children_staggerContainer p c c' :
  children (staggerContainer p c) c' = children p c'.
Proof. apply children_forEach_stagger. Qed.

Lemma foldl_staggerContainer_sets cs p c i y :
  NoDup cs → c ∈ cs → children p c !! i = Some y →
  staggered (foldl staggerContainer p cs) i y.
Proof.
  revert p. induction cs as [|c0 cs IH]; intros p Hnd Hc Hi; [by apply elem_of_nil in Hc|].
  apply NoDup_cons in Hnd as [Hc0 Hnd]. simpl.
  apply elem_of_cons in Hc as [->|Hc].
  - clear IH. assert (Hst := staggerContainer_sets _ _ _ _ Hi).
    assert (Hy : y ∈ children p c0) by (apply list_elem_of_lookup; eauto).
    revert Hst.
    assert (Hch : ∀ c', children (staggerContainer p c0) c' = children p c')
      by (intros; apply children_staggerContainer).
    generalize dependent (staggerContainer p c0). intros q Hch Hst.
    revert q Hch Hst. induction cs as [|c1 cs IH]; intros q Hch Hst; simpl; [done|].
    apply NoDup_cons in Hnd as [Hc1 Hnd].
    apply not_elem_of_cons in Hc0 as [Hne Hc0].
    apply IH; [done..| |].
    + intros c'. by rewrite children_staggerContainer.
    + apply staggerContainer_keeps; [|done].
      rewrite Hch. intros Hy'. apply Hne. eapply children_disjoint; eauto.
  - apply IH; [done..|]. by rewrite children_staggerContainer.
Qed.

Lemma select_from_ge sel i d x : x ∈ select_from sel i d → i ≤ x.
Proof.
  revert i. induction d as [|e d IH]; intros i; simpl; [by rewrite elem_of_nil|].
  destruct (matches sel e).
  - rewrite elem_of_cons. intros [->|Hx]; [lia|]. apply IH in Hx. lia.
  - intros Hx. apply IH in Hx. lia.
Qed.

Lemma select_from_NoDup sel i d : NoDup (select_from sel i d).
Proof.
  revert i. induction d as [|e d IH]; intros i; simpl; [constructor|].
  destruct (matches sel e); [|apply IH].
  apply NoDup_cons. split; [|apply IH].
  intros Hx. apply select_from_ge in Hx. lia.
Qed.

Lemma querySelectorAll_NoDup sel p : NoDup (querySelectorAll sel p).
Proof. apply select_from_NoDup. Qed.

Lemma dom_foldl_observe l p : dom (foldl (λ q el, observe el q) p l) = dom p.
Proof. revert p. induction l as [|x l IH]; intros p; simpl; [done|]. by rewrite IH. Qed.

(** C7. After [initScrollReveal], the child at index [i] of every
    [.stagger-grid] container has the class [reveal-up], has
    [i * 100] followed by [ms] as its transition delay, and is among the
    observer's targets; the delays grow strictly with the index. *)
Theorem stagger_children_delay (p p' : Page) (container i child : nat) :
  initScrollReveal p = Normal p' →
  container ∈ querySelectorAll ["stagger-grid"] p →
  children p container !! i = Some child →
  has_class p' child "reveal-up" = true
  ∧ get_style p' child "transitionDelay" = Some (pretty (N.of_nat i * 100)%N +:+ "ms")
  ∧ child ∈ observed p'
  ∧ ∀ j, i < j → (staggerDelayOf i < staggerDelayOf j)%N.
Proof.
  intros Hinit Hc Hi. unfold initScrollReveal in Hinit. injection Hinit as <-.
  set (p1 := foldl (λ q el, observe el q) p _).
  assert (Hdom : dom p1 = dom p) by apply dom_foldl_observe.
  destruct (foldl_staggerContainer_sets (querySelectorAll ["stagger-grid"] p)
              p1 container i child) as (H1 & H2 & H3).
  - apply querySelectorAll_NoDup.
  - done.
  - unfold children. by rewrite Hdom.
  - split_and!; [done..|].
    intros j Hj. unfold staggerDelayOf, CONFIG.staggerDelay. lia.
Qed.

Lemma stagger_children_delay_witness :
  let grid := mkElement None {["stagger-grid"]} ∅ "" ∅ in
  let card := mkElement (Some 0) ∅ ∅ "" ∅ in
  let p := load [grid; card; card; card] in
  ∃ p', initScrollReveal p = Normal p'
        ∧ get_style p' 3 "transitionDelay" = Some "200ms".
Proof.
  eexists. split; [reflexivity|].
  eapply (stagger_children_delay
            (load [mkElement None {["stagger-grid"]} ∅ "" ∅;
                   mkElement (Some 0) ∅ ∅ "" ∅;
                   mkElement (Some 0) ∅ ∅ "" ∅;
                   mkElement (Some 0) ∅ ∅ "" ∅]) _ 0 2 3).
  - reflexivity.
  - vm_compute. left.
  - reflexivity.
Defined.

(** ** Number counter *)

Section QFacts.
Local Open Scope Q_scope.














End QFacts.

Lemma get_innerHTML_update p n s :
  is_Some (dom p !! n) → get_innerHTML (update n (with_innerHTML s) p) n = s.
Proof.
  intros [e He]. unfold get_innerHTML. by rewrite lookup_update_eq, He.
Qed.

Lemma is_Some_update p n f m :
  is_Some (dom (update n f p) !! m) ↔ is_Some (dom p !! m).
Proof. by rewrite !lookup_lt_is_Some, length_update. Qed.










Section CounterRun.
Context (obj : nat) (T : N) (suffix : string).














End CounterRun.









(** *** The start of the animation *)

(** C4, at a first frame with timestamp 0.  The formula, counting from
    the first frame, gives 46 at time 1000 for a target of 50; the script
    takes the 0 it stored for "not started", starts again at 1000, and
    shows 0. *)
Theorem counter_restarts_after_zero_frame :
  play_texts 0 [0; 1000]%Q (animateValue 0 counterPage) = ["0%"; "0%"]
  ∧ spec_displayed 0 1000 50 = 46%Z
  ∧ play_texts 0 [1; 1001]%Q (animateValue 0 counterPage)
    = ["0%"; pretty (spec_displayed 1 1001 50) +:+ "%"].
Proof. split_and!; reflexivity. Qed.






(** ** Scroll reveal: each element is revealed once *)

Lemma calm_refl p : calm p p.
Proof. by split_and!. Qed.

Lemma calm_trans p q r : calm p q → calm q r → calm p r.
Proof. intros (Ho & Hl & Hv) (Ho' & Hl' & Hv'). split_and!; [congruence..|auto]. Qed.

Lemma calm_same p q : dom q = dom p → observed q = observed p → calm p q.
Proof. intros Hd Ho. split_and!; [done|by rewrite Hd|]. unfold has_class. by rewrite Hd. Qed.

Lemma calm_update p n f :
  (∀ e, "visible" ∈ classList e → "visible" ∈ classList (f e)) → calm p (update n f p).
Proof.
  intros Hf. split_and!; [done|apply length_update|]. intros m. unfold has_class.
  destruct (decide (n = m)) as [->|Hne].
  - rewrite lookup_update_eq. destruct (dom p !! m) as [e|]; simpl; [|done].
    unfold classList_contains. rewrite !bool_decide_eq_true. apply Hf.
  - by rewrite lookup_update_ne.
Qed.

Lemma calm_foldl {A} (f : Page → A → Page) l p :
  (∀ q x, calm q (f q x)) → calm p (foldl f p l).
Proof.
  intros Hf. revert p. induction l as [|x l IH]; intros p; simpl; [apply calm_refl|].
  eapply calm_trans; [apply Hf|apply IH].
Qed.

Lemma calm_handleScroll h p : calm p (handleScroll h p).
Proof.
  unfold handleScroll. destruct (Qlt_le_dec _ _); apply calm_update; intros e;
    simpl; unfold classList_add, classList_remove; set_solver.
Qed.

Lemma calm_toggleMenu b n p : calm p (toggleMenu b n p).
Proof.
  unfold toggleMenu.
  assert (Htoggle : ∀ e, "visible" ∈ classList e →
                         "visible" ∈ classList (with_classList (classList_toggle "active") e)).
  { intros e. simpl. unfold classList_toggle, classList_add, classList_remove.
    destruct (classList_contains _ _); set_solver. }
  eapply calm_trans; [|by apply calm_update].
  eapply calm_trans; [|by apply calm_update].
  by apply calm_update.
Qed.

Lemma calm_playClick btn p : calm p (playClick btn p).
Proof.
  unfold playClick.
  eapply calm_trans; [by apply (calm_update p btn (with_style "transform" "scale(0.9)"))|].
  eapply calm_trans; [by apply calm_same|].
  eapply calm_trans; [by apply calm_same|].
  eapply calm_trans; [by apply (calm_update _ btn (with_innerHTML loadingLabel))|].
  by apply calm_same.
Qed.

Lemma calm_run_handler h t p : calm p (run_handler h t p).
Proof.
  destruct h; simpl.
  - apply calm_handleScroll.
  - apply calm_toggleMenu.
  - destruct (has_class _ _ _); [apply calm_toggleMenu|apply calm_refl].
  - destruct (_ && _); [apply calm_toggleMenu|apply calm_refl].
  - apply calm_playClick.
Qed.

Lemma calm_step c t p : calm p (step c t p).
Proof.
  unfold step. destruct (Qlt_le_dec _ _).
  - eapply calm_trans; [by eapply (calm_update p (step_obj c) (with_innerHTML _))|].
    by apply calm_same.
  - eapply calm_trans; [by eapply (calm_update p (step_obj c) (with_innerHTML _))|].
    by eapply (calm_update _ (step_obj c) (with_innerHTML _)).
Qed.

Lemma calm_fire cb p : calm p (fire cb p).
Proof.
  destruct cb; simpl.
  - by eapply (calm_update p btn (with_style _ _)).
  - eapply calm_trans; [by apply (calm_update p btn (with_innerHTML originalText))|].
    by apply calm_same.
Qed.

Lemma calm_run_due deadline q p : calm p (run_due deadline q p).
Proof.
  revert p. induction q as [|t q IH]; intros p; simpl; [by apply calm_same|].
  destruct (_ <=? _)%N; [|by apply calm_same].
  eapply calm_trans; [apply calm_fire|apply IH].
Qed.

Lemma calm_dispatch p ev :
  (∀ entries, ev ≠ Intersection entries) → calm p (dispatch p ev).
Proof.
  intros Hev. destruct ev; simpl.
  - unfold scroll. eapply calm_trans; [|apply calm_foldl; intros; apply calm_run_handler].
    by apply calm_same.
  - unfold click. apply calm_foldl. intros. apply calm_run_handler.
  - by destruct (Hev entries).
  - unfold animationFrame.
    eapply calm_trans; [|apply calm_foldl; intros; apply calm_step].
    by apply calm_same.
  - unfold elapse. eapply calm_trans; [apply calm_run_due|]. by apply calm_same.
Qed.












Lemma run_cons ev evs p : run (ev :: evs) p = run evs (dispatch p ev).
Proof. done. Qed.

Lemma run_app pre post p : run (pre ++ post) p = run post (run pre p).
Proof. apply foldl_app. Qed.










(** ** Video mockup *)

Lemma get_innerHTML_update_other p n f m :
  (∀ e, innerHTML (f e) = innerHTML e) →
  get_innerHTML (update n f p) m = get_innerHTML p m.
Proof.
  intros Hf. unfold get_innerHTML. destruct (decide (n = m)) as [->|Hne].
  - rewrite lookup_update_eq. destruct (dom p !! m); simpl; [by rewrite Hf|done].
  - by rewrite lookup_update_ne.
Qed.

Lemma playClick_timers btn p :
  timers (playClick btn p)
  = enqueue (mkTimer (S (nextTimer p)) (clock p + 800) (RestoreLabel btn (get_innerHTML p btn)))
      (enqueue (mkTimer (nextTimer p) (clock p + 150) (ResetTransform btn)) (timers p)).
Proof.
  unfold playClick. simpl. do 3 f_equal.
  change (get_innerHTML (update btn (with_style "transform" "scale(0.9)") p) btn
          = get_innerHTML p btn).
  by apply get_innerHTML_update_other.
Qed.

Lemma playClick_label btn p :
  is_Some (dom p !! btn) → get_innerHTML (playClick btn p) btn = loadingLabel.
Proof.
  intros Hbtn. unfold playClick.
  change (get_innerHTML
            (update btn (with_innerHTML loadingLabel)
               (update btn (with_style "transform" "scale(0.9)") p)) btn = loadingLabel).
  by apply get_innerHTML_update, is_Some_update.
Qed.

Lemma playClick_clock btn p : clock (playClick btn p) = clock p.
Proof. done. Qed.

Lemma playClick_alerts btn p : alerts (playClick btn p) = alerts p.
Proof. done. Qed.

Lemma Forall_enqueue (P : Timer → Prop) t q :
  P t → Forall P q → Forall P (enqueue t q).
Proof.
  intros Ht. induction q as [|x q IH]; intros Hq; simpl.
  - by constructor.
  - apply Forall_cons in Hq as [Hx Hq].
    destruct (_ <? _)%N; repeat constructor; auto.
Qed.

Lemma enqueue_last t q :
  Forall (λ x, (timer_due x ≤ timer_due t)%N) q → enqueue t q = q ++ [t].
Proof.
  induction q as [|x q IH]; intros Hq; simpl; [done|].
  apply Forall_cons in Hq as [Hx Hq].
  destruct (N.ltb_spec (timer_due t) (timer_due x)); [lia|]. by rewrite IH.
Qed.

Lemma pending_notices_app q1 q2 :
  pending_notices (q1 ++ q2) = pending_notices q1 + pending_notices q2.
Proof. unfold pending_notices. by rewrite filter_app, length_app. Qed.

Lemma pending_notices_cons t q :
  pending_notices (t :: q) = (if is_restore t then 1 else 0) + pending_notices q.
Proof.
  unfold pending_notices. rewrite filter_cons.
  destruct (is_restore t); [by rewrite decide_True|by rewrite decide_False].
Qed.

Lemma pending_notices_enqueue t q :
  pending_notices (enqueue t q) = (if is_restore t then 1 else 0) + pending_notices q.
Proof.
  induction q as [|x q IH]; simpl; [apply pending_notices_cons|].
  destruct (_ <? _)%N; rewrite !pending_notices_cons; [done|]. rewrite IH. lia.
Qed.

Lemma notices_add n m : notices (n + m) = notices n ++ notices m.
Proof. apply replicate_add. Qed.

(** Inserting a timer that restores no label by [D] leaves [ours] where
    it waits. *)
Lemma enqueue_around t pre ours post D :
  timer_due ours = D →
  Forall (λ x, (timer_due x ≤ D)%N) pre →
  Forall (λ x, is_restore x = false ∨ (D < timer_due x)%N) post →
  is_restore t = false ∨ (D < timer_due t)%N →
  ∃ pre' post',
    enqueue t (pre ++ ours :: post) = pre' ++ ours :: post'
    ∧ Forall (λ x, (timer_due x ≤ D)%N) pre'
    ∧ Forall (λ x, is_restore x = false ∨ (D < timer_due x)%N) post'
    ∧ pending_notices pre' = pending_notices pre.
Proof.
  intros Hours Hpre Hpost Ht. induction pre as [|x pre IH]; simpl.
  - destruct (N.ltb_spec (timer_due t) (timer_due ours)) as [Hlt|Hge].
    + exists [t], post. split_and!; [done| |done|].
      * repeat constructor. lia.
      * rewrite pending_notices_cons. destruct Ht as [->|Ht]; [done|lia].
    + exists [], (enqueue t post). split_and!; [done|done| |done].
      by apply Forall_enqueue.
  - apply Forall_cons in Hpre as [Hx Hpre].
    destruct (N.ltb_spec (timer_due t) (timer_due x)) as [Hlt|Hge].
    + exists (t :: x :: pre), post. split_and!; [done| |done|].
      * repeat constructor; [lia|done|done].
      * rewrite (pending_notices_cons t). destruct Ht as [->|Ht]; [done|lia].
    + destruct (IH Hpre) as (pre' & post' & -> & Hpre' & Hpost' & Hcount).
      exists (x :: pre'), post'. split_and!; [done| |done|].
      * by constructor.
      * rewrite !pending_notices_cons. lia.
Qed.

Lemma fire_length cb p : length (dom (fire cb p)) = length (dom p).
Proof. by destruct (calm_fire cb p) as (_ & ? & _). Qed.

Lemma fire_alerts t p :
  alerts (fire (timer_callback t) p)
  = alerts p ++ notices (if is_restore t then 1 else 0).
Proof.
  unfold is_restore. destruct (timer_callback t); simpl; [|done].
  by rewrite app_nil_r.
Qed.

Lemma fire_restore_label btn L p :
  is_Some (dom p !! btn) → get_innerHTML (fire (RestoreLabel btn L) p) btn = L.
Proof.
  intros Hbtn. simpl.
  change (get_innerHTML (update btn (with_innerHTML L) p) btn = L).
  by apply get_innerHTML_update.
Qed.

Lemma fire_reset_label t p btn :
  is_restore t = false →
  get_innerHTML (fire (timer_callback t) p) btn = get_innerHTML p btn.
Proof.
  unfold is_restore. destruct (timer_callback t); [|done]. intros _. simpl.
  by apply get_innerHTML_update_other.
Qed.

Lemma fire_all_length p q : length (dom (fire_all p q)) = length (dom p).
Proof.
  revert p. induction q as [|t q IH]; intros p; simpl; [done|].
  unfold fire_all in *. simpl. by rewrite IH, fire_length.
Qed.

Lemma fire_all_alerts p q :
  alerts (fire_all p q) = alerts p ++ notices (pending_notices q).
Proof.
  revert p. induction q as [|t q IH]; intros p.
  - simpl. by rewrite app_nil_r.
  - unfold fire_all in *. simpl. rewrite IH, fire_alerts, pending_notices_cons.
    by rewrite notices_add, app_assoc.
Qed.

Lemma fire_all_clock p q : clock (fire_all p q) = clock p.
Proof.
  revert p. induction q as [|t q IH]; intros p; [done|].
  unfold fire_all in *. simpl. rewrite IH. by destruct (timer_callback t).
Qed.

Lemma run_due_app D pre rest p :
  Forall (λ t, (timer_due t ≤ D)%N) pre →
  run_due D (pre ++ rest) p = run_due D rest (fire_all p pre).
Proof.
  revert p. induction pre as [|t pre IH]; intros p Hpre; [done|].
  apply Forall_cons in Hpre as [Ht Hpre]. simpl.
  destruct (N.leb_spec (timer_due t) D); [|lia]. by rewrite IH.
Qed.

Lemma run_due_prefix D pre ours post p :
  (D < timer_due ours)%N →
  ∃ pre1 pre2,
    pre = pre1 ++ pre2
    ∧ run_due D (pre ++ ours :: post) p
      = with_timers (λ _, pre2 ++ ours :: post) (fire_all p pre1).
Proof.
  intros Hours. revert p. induction pre as [|t pre IH]; intros p; simpl.
  - exists [], []. split; [done|].
    destruct (N.leb_spec (timer_due ours) D); [lia|done].
  - destruct (N.leb_spec (timer_due t) D).
    + destruct (IH (fire (timer_callback t) p)) as (pre1 & pre2 & -> & ->).
      by exists (t :: pre1), pre2.
    + by exists [], (t :: pre).
Qed.

Lemma run_due_behind D post p btn :
  Forall (λ t, is_restore t = false ∨ (D < timer_due t)%N) post →
  get_innerHTML (run_due D post p) btn = get_innerHTML p btn
  ∧ alerts (run_due D post p) = alerts p.
Proof.
  revert p. induction post as [|t post IH]; intros p Hpost; simpl; [done|].
  apply Forall_cons in Hpost as [Ht Hpost].
  destruct (N.leb_spec (timer_due t) D); [|done].
  destruct Ht as [Ht|Ht]; [|lia].
  destruct (IH (fire (timer_callback t) p) Hpost) as [-> ->].
  split; [by apply fire_reset_label|].
  by rewrite fire_alerts, Ht, app_nil_r.
Qed.

Lemma elapse_length dt p : length (dom (elapse dt p)) = length (dom p).
Proof. by destruct (calm_dispatch p (Elapse dt)) as (_ & ? & _). Qed.

Lemma playClick_length btn p : length (dom (playClick btn p)) = length (dom p).
Proof. by destruct (calm_playClick btn p) as (_ & ? & _). Qed.

Lemma perform_length p a : length (dom (perform p a)) = length (dom p).
Proof. destruct a; [apply playClick_length|apply elapse_length]. Qed.

Lemma elapse_clock dt p : clock (elapse dt p) = (clock p + dt)%N.
Proof. done. Qed.

Lemma awaiting_initial btn p :
  timers_within p →
  awaiting (mkTimer (S (nextTimer p)) (clock p + 800)
              (RestoreLabel btn (get_innerHTML p btn)))
           (clock p + 800)
           (alerts p ++ notices (pending_notices (timers p)))
           (playClick btn p).
Proof.
  intros Hwithin.
  exists (enqueue (mkTimer (nextTimer p) (clock p + 150) (ResetTransform btn)) (timers p)), [].
  assert (Hpre : Forall (λ t, (timer_due t ≤ clock p + 800)%N)
                   (enqueue (mkTimer (nextTimer p) (clock p + 150) (ResetTransform btn))
                            (timers p))).
  { apply Forall_enqueue; [simpl; lia|done]. }
  split_and!; [|done|done|].
  - rewrite playClick_timers. by apply enqueue_last.
  - by rewrite playClick_alerts, pending_notices_enqueue.
Qed.

Lemma awaiting_playClick ours D base btn q :
  timer_due ours = D → (D < clock q + 800)%N →
  awaiting ours D base q → awaiting ours D base (playClick btn q).
Proof.
  intros Hours Hlate (pre & post & Htimers & Hpre & Hpost & Hbase).
  rewrite <- Hbase. clear Hbase.
  destruct (enqueue_around
              (mkTimer (nextTimer q) (clock q + 150) (ResetTransform btn))
              pre ours post D Hours Hpre Hpost) as (pre1 & post1 & H1 & Hpre1 & Hpost1 & Hc1);
    [by left|].
  destruct (enqueue_around
              (mkTimer (S (nextTimer q)) (clock q + 800)
                 (RestoreLabel btn (get_innerHTML q btn)))
              pre1 ours post1 D Hours Hpre1 Hpost1) as (pre2 & post2 & H2 & Hpre2 & Hpost2 & Hc2);
    [by right|].
  exists pre2, post2. split_and!; [|done|done|].
  - by rewrite playClick_timers, Htimers, H1, H2.
  - rewrite playClick_alerts. congruence.
Qed.

Lemma awaiting_elapse ours D base dt q :
  timer_due ours = D → (clock q + dt < D)%N →
  awaiting ours D base q → awaiting ours D base (elapse dt q).
Proof.
  intros Hours Hearly (pre & post & Htimers & Hpre & Hpost & Hbase).
  rewrite <- Hbase. clear Hbase.
  destruct (run_due_prefix (clock q + dt) pre ours post q) as (pre1 & pre2 & -> & Hrun);
    [lia|].
  apply Forall_app in Hpre as [_ Hpre2].
  exists pre2, post. split_and!; [|done|done|].
  - unfold elapse. by rewrite Htimers, Hrun.
  - unfold elapse. rewrite Htimers, Hrun. simpl.
    rewrite fire_all_alerts, pending_notices_app, notices_add. by rewrite app_assoc.
Qed.

Lemma awaiting_final ours D base btn L dt q :
  timer_due ours = D → timer_callback ours = RestoreLabel btn L →
  is_Some (dom q !! btn) → (clock q + dt = D)%N →
  awaiting ours D base q →
  get_innerHTML (elapse dt q) btn = L
  ∧ alerts (elapse dt q) = base ++ [placeholderNotice].
Proof.
  intros Hours Hcb Hbtn Hnow (pre & post & Htimers & Hpre & Hpost & Hbase).
  unfold elapse. rewrite Htimers, Hnow, run_due_app by done.
  simpl run_due. destruct (N.leb_spec (timer_due ours) D); [|lia].
  rewrite Hcb.
  destruct (run_due_behind D post (fire (RestoreLabel btn L) (fire_all q pre)) btn Hpost)
    as [Hlabel Halerts].
  split.
  - change (get_innerHTML (run_due D post (fire (RestoreLabel btn L) (fire_all q pre))) btn = L).
    rewrite Hlabel. apply fire_restore_label.
    apply lookup_lt_is_Some. rewrite fire_all_length. by apply lookup_lt_is_Some.
  - change (alerts (run_due D post (fire (RestoreLabel btn L) (fire_all q pre)))
            = base ++ [placeholderNotice]).
    rewrite Halerts. simpl. by rewrite fire_all_alerts, Hbase.
Qed.

Lemma awaiting_activities ours D base btn L t0 acts q :
  timer_due ours = D → timer_callback ours = RestoreLabel btn L →
  D = (t0 + 800)%N →
  is_Some (dom q !! btn) →
  awaiting ours D base q →
  (clock q + elapsed acts < D)%N →
  presses_after t0 (clock q) acts →
  get_innerHTML (elapse (D - clock q - elapsed acts) (foldl perform q acts)) btn = L
  ∧ alerts (elapse (D - clock q - elapsed acts) (foldl perform q acts))
    = base ++ [placeholderNotice].
Proof.
  intros Hours Hcb HD. revert q.
  induction acts as [|a acts IH]; intros q Hbtn Haw Htime Hpress.
  - cbn [foldl elapsed] in *.
    apply (awaiting_final ours D base btn L); [done..|lia|done].
  - assert (Hbtn' : is_Some (dom (perform q a) !! btn)).
    { apply lookup_lt_is_Some. rewrite perform_length. by apply lookup_lt_is_Some. }
    destruct a as [b|dt]; cbn [foldl elapsed presses_after perform] in *.
    + destruct Hpress as [Hlater Hpress].
      apply (IH (playClick b q)); [done| |by rewrite playClick_clock..].
      apply awaiting_playClick; [done|lia|done].
    + replace (D - clock q - (dt + elapsed acts))%N
        with (D - clock (elapse dt q) - elapsed acts)%N by (rewrite elapse_clock; lia).
      apply (IH (elapse dt q)); [done| |rewrite elapse_clock; lia|by rewrite elapse_clock].
      apply awaiting_elapse; [done|lia|done].
Qed.

Lemma notices_S n : notices (S n) = notices n ++ [placeholderNotice].
Proof. replace (S n) with (n + 1) by lia. apply notices_add. Qed.

(** A click, what follows it, and the page when 800 have passed since. *)
Lemma label_restored p btn acts :
  timers_within p → is_Some (dom p !! btn) →
  presses_after (clock p) (clock p) acts → (elapsed acts < 800)%N →
  get_innerHTML (elapse (800 - elapsed acts) (foldl perform (playClick btn p) acts)) btn
  = get_innerHTML p btn
  ∧ alerts (elapse (800 - elapsed acts) (foldl perform (playClick btn p) acts))
    = alerts p ++ notices (S (pending_notices (timers p))).
Proof.
  intros Hwithin Hbtn Hpress Htime.
  pose proof (awaiting_initial btn p Hwithin) as Haw.
  rewrite notices_S, app_assoc.
  replace (800 - elapsed acts)%N
    with (clock p + 800 - clock (playClick btn p) - elapsed acts)%N
    by (rewrite playClick_clock; lia).
  apply (awaiting_activities
           (mkTimer (S (nextTimer p)) (clock p + 800)
              (RestoreLabel btn (get_innerHTML p btn)))
           (clock p + 800)%N _ btn (get_innerHTML p btn) (clock p) acts (playClick btn p));
    [done|done|done| |exact Haw|rewrite playClick_clock; lia|done].
  apply lookup_lt_is_Some. rewrite playClick_length. by apply lookup_lt_is_Some.
Qed.

(** C8. A click on a play button puts the loading text on it.  When 800
    have passed since the click, the button's label is again what it was
    just before the click, whatever presses on play buttons came after
    this one in the meantime; and by then [alert] has shown the notice
    once for this click and once for each earlier click that was still
    waiting, and no more. *)
Theorem video_click_restores_label (p : Page) (btn : nat) (acts : list Activity) :
  timers_within p →
  is_Some (dom p !! btn) →
  presses_after (clock p) (clock p) acts →
  (elapsed acts < 800)%N →
  get_innerHTML (playClick btn p) btn = loadingLabel
  ∧ get_innerHTML (elapse (800 - elapsed acts) (foldl perform (playClick btn p) acts)) btn
    = get_innerHTML p btn
  ∧ alerts (elapse (800 - elapsed acts) (foldl perform (playClick btn p) acts))
    = alerts p ++ notices (S (pending_notices (timers p))).
Proof.
  intros Hwithin Hbtn Hpress Htime. split; [by apply playClick_label|].
  by apply label_restored.
Qed.

Lemma video_click_restores_label_witness :
  get_innerHTML (playClick 1 playPage) 1 = loadingLabel
  ∧ get_innerHTML
      (elapse 500 (foldl perform (playClick 1 playPage) [Wait 300; Press 1])) 1 = "Play"
  ∧ alerts (elapse 500 (foldl perform (playClick 1 playPage) [Wait 300; Press 1]))
    = [placeholderNotice].
Proof.
  apply (video_click_restores_label playPage 1 [Wait 300; Press 1]).
  - constructor.
  - simpl. eauto.
  - split; [reflexivity|exact I].
  - reflexivity.
Defined.

Lemma timers_within_playClick btn p : timers_within p → timers_within (playClick btn p).
Proof.
  unfold timers_within. intros Hp. rewrite playClick_timers, playClick_clock.
  apply Forall_enqueue; [simpl; lia|]. apply Forall_enqueue; [simpl; lia|done].
Qed.

Lemma run_due_timers (P : Timer → Prop) D q p :
  Forall P q → Forall P (timers (run_due D q p)).
Proof.
  revert p. induction q as [|t q IH]; intros p Hq; simpl; [constructor|].
  destruct (_ <=? _)%N; [|done]. apply Forall_cons in Hq as [_ Hq]. by apply IH.
Qed.

Lemma timers_within_elapse dt p : timers_within p → timers_within (elapse dt p).
Proof.
  unfold timers_within. intros Hp. unfold elapse. simpl.
  apply run_due_timers. eapply Forall_impl; [exact Hp|]. simpl. intros t Ht. lia.
Qed.

Lemma run_due_all D q p :
  Forall (λ t, (timer_due t ≤ D)%N) q → timers (run_due D q p) = [].
Proof.
  revert p. induction q as [|t q IH]; intros p Hq; simpl; [done|].
  apply Forall_cons in Hq as [Ht Hq].
  destruct (N.leb_spec (timer_due t) D); [|lia]. by apply IH.
Qed.

Lemma elapse_timers dt p :
  timers (elapse dt p) = timers (run_due (clock p + dt) (timers p) p).
Proof. done. Qed.

Lemma elem_of_enqueue t q : t ∈ enqueue t q.
Proof.
  induction q as [|x q IH]; simpl; [by left|].
  destruct (_ <? _)%N; [by left|by right].
Qed.

(** The first click of a quiet page, and the time up to its 800 mark. *)
Lemma first_click_pending btn p d :
  timers p = [] → is_Some (dom p !! btn) → (d < 800)%N →
  get_innerHTML (elapse d (playClick btn p)) btn = loadingLabel.
Proof.
  intros Hquiet Hbtn Hd.
  pose proof (playClick_label btn p Hbtn) as Hlabel.
  unfold elapse. rewrite playClick_timers, playClick_clock, Hquiet. simpl enqueue.
  destruct (N.ltb_spec (clock p + 800) (clock p + 150)); [lia|]. simpl run_due.
  destruct (N.leb_spec (clock p + 150) (clock p + d)).
  - destruct (N.leb_spec (clock p + 800) (clock p + d)); [lia|].
    change (get_innerHTML (fire (ResetTransform btn) (playClick btn p)) btn = loadingLabel).
    rewrite <- Hlabel. simpl. by apply get_innerHTML_update_other.
  - exact Hlabel.
Qed.

(** C10. On a page with no timer pending, click a play button, and click
    it again less than 800 later.  The second click's timer carries the
    loading text as the text to restore.  At the first click's 800 mark
    the button has its true label again (when the clicks are not at the
    same instant); at the second click's 800 mark it has the loading
    text, and no timer is left to change that. *)
Theorem second_click_keeps_loading (p : Page) (btn : nat) (d : N) :
  timers p = [] →
  is_Some (dom p !! btn) →
  (d < 800)%N →
  RestoreLabel btn loadingLabel
    ∈ (timer_callback <$> timers (playClick btn (elapse d (playClick btn p))))
  ∧ ((0 < d)%N →
     get_innerHTML (elapse (800 - d) (playClick btn (elapse d (playClick btn p)))) btn
     = get_innerHTML p btn)
  ∧ get_innerHTML (elapse 800 (playClick btn (elapse d (playClick btn p)))) btn
    = loadingLabel
  ∧ timers (elapse 800 (playClick btn (elapse d (playClick btn p)))) = [].
Proof.
  intros Hquiet Hbtn Hd.
  assert (Hwithin : timers_within p) by (unfold timers_within; rewrite Hquiet; constructor).
  pose proof (first_click_pending btn p d Hquiet Hbtn Hd) as Hloading.
  set (p' := elapse d (playClick btn p)) in *.
  assert (Hwithin' : timers_within p')
    by by apply timers_within_elapse, timers_within_playClick.
  assert (Hbtn' : is_Some (dom p' !! btn)).
  { apply lookup_lt_is_Some. unfold p'. rewrite elapse_length, playClick_length.
    by apply lookup_lt_is_Some. }
  split_and!.
  - rewrite playClick_timers, Hloading. apply list_elem_of_fmap.
    eexists. split; [|apply elem_of_enqueue]. done.
  - intros Hpos.
    destruct (label_restored p btn [Wait d; Press btn] Hwithin Hbtn) as [Hlabel _];
      [split; [lia|exact I]|simpl; lia|].
    cbn [elapsed foldl perform] in Hlabel. rewrite N.add_0_r in Hlabel. exact Hlabel.
  - destruct (label_restored p' btn [] Hwithin' Hbtn') as [Hlabel _]; [exact I|done|].
    change (800 - elapsed [])%N with 800%N in Hlabel. cbn [foldl] in Hlabel.
    rewrite Hlabel. exact Hloading.
  - rewrite elapse_timers. apply run_due_all.
    exact (timers_within_playClick btn p' Hwithin').
Qed.

Lemma second_click_keeps_loading_witness :
  get_innerHTML (elapse 500 (playClick 1 (elapse 300 (playClick 1 playPage)))) 1 = "Play"
  ∧ get_innerHTML (elapse 800 (playClick 1 (elapse 300 (playClick 1 playPage)))) 1
    = loadingLabel
  ∧ timers (elapse 800 (playClick 1 (elapse 300 (playClick 1 playPage)))) = [].
Proof.
  destruct (second_click_keeps_loading playPage 1 300) as (_ & Hfirst & Hsecond & Hnone).
  - reflexivity.
  - simpl. eauto.
  - reflexivity.
  - split; [apply Hfirst; reflexivity|]. split; [exact Hsecond|exact Hnone].
Defined.

(** ** Mobile menu *)

Lemma fmap_alter_same {A B} (g : A → B) (f : A → A) n (l : list A) :
  (∀ x, g (f x) = g x) → g <$> alter f n l = g <$> l.
Proof.
  intros Hgf. unfold alter. revert n.
  induction l as [|x l IH]; intros [|n]; simpl; try done.
  - by rewrite Hgf.
  - f_equal. apply IH.
Qed.

Lemma parents_update p n f :
  (∀ e, parentNode (f e) = parentNode e) → parents (update n f p) = parents p.
Proof. intros Hf. unfold parents. simpl. by apply fmap_alter_same. Qed.

Lemma parents_length p q : parents q = parents p → length (dom q) = length (dom p).
Proof.
  unfold parents. intros H. apply (f_equal length) in H. by rewrite !length_fmap in H.
Qed.

Lemma inclusive_ancestors_parents fuel d d' n :
  parentNode <$> d = parentNode <$> d' →
  inclusive_ancestors fuel d n = inclusive_ancestors fuel d' n.
Proof.
  intros Hpar. revert n. induction fuel as [|fuel IH]; intros n; simpl; [done|].
  assert (Hn : parentNode <$> (d !! n) = parentNode <$> (d' !! n))
    by by rewrite <- !list_lookup_fmap, Hpar.
  destruct (d !! n) as [e|], (d' !! n) as [e'|]; simpl in Hn; try done.
  injection Hn as ->. destruct (parentNode e'); [by rewrite IH|done].
Qed.

Lemma path_parents p q t : parents q = parents p → path q t = path p t.
Proof.
  intros H. unfold path. rewrite (parents_length _ _ H).
  by apply inclusive_ancestors_parents.
Qed.

Lemma contains_parents p q a t : parents q = parents p → contains q a t = contains p a t.
Proof. intros H. unfold contains. by rewrite (path_parents _ _ _ H). Qed.



Lemma steady_refl p : steady p p.
Proof. done. Qed.

Lemma steady_trans p q r : steady p q → steady q r → steady p r.
Proof. intros [H1 H2] [H3 H4]. split; congruence. Qed.

Lemma steady_same p q : dom q = dom p → listeners q = listeners p → steady p q.
Proof. intros Hd Hl. split; [|done]. unfold parents. by rewrite Hd. Qed.

Lemma steady_update p n f :
  (∀ e, parentNode (f e) = parentNode e) → steady p (update n f p).
Proof. intros Hf. split; [by apply parents_update|done]. Qed.

Lemma steady_foldl {A} (f : Page → A → Page) l p :
  (∀ q x, steady q (f q x)) → steady p (foldl f p l).
Proof.
  intros Hf. revert p. induction l as [|x l IH]; intros p; simpl; [apply steady_refl|].
  eapply steady_trans; [apply Hf|apply IH].
Qed.

Lemma steady_handleScroll h p : steady p (handleScroll h p).
Proof. unfold handleScroll. destruct (Qlt_le_dec _ _); by apply steady_update. Qed.

Lemma steady_toggleMenu b n p : steady p (toggleMenu b n p).
Proof.
  unfold toggleMenu.
  eapply steady_trans; [|by apply steady_update].
  eapply steady_trans; by apply steady_update.
Qed.

Lemma steady_playClick btn p : steady p (playClick btn p).
Proof.
  unfold playClick.
  eapply steady_trans;
    [by apply (steady_update p btn (with_style "transform" "scale(0.9)"))|].
  eapply steady_trans; [by apply steady_same|].
  eapply steady_trans; [by apply steady_same|].
  eapply steady_trans; [by apply (steady_update _ btn (with_innerHTML loadingLabel))|].
  by apply steady_same.
Qed.

Lemma steady_run_handler h t p : steady p (run_handler h t p).
Proof.
  destruct h; simpl.
  - apply steady_handleScroll.
  - apply steady_toggleMenu.
  - destruct (has_class _ _ _); [apply steady_toggleMenu|apply steady_refl].
  - destruct (_ && _); [apply steady_toggleMenu|apply steady_refl].
  - apply steady_playClick.
Qed.

Lemma steady_click t p : steady p (click t p).
Proof. unfold click. apply steady_foldl. intros. apply steady_run_handler. Qed.

Lemma click_handlers_steady p q t :
  steady p q →
  propagation q t ≫= listeners_for q "click" = propagation p t ≫= listeners_for p "click".
Proof.
  intros [Hpar Hl]. unfold propagation, listeners_for.
  by rewrite (path_parents _ _ _ Hpar), Hl.
Qed.

Lemma classList_contains_toggle c cs :
  classList_contains c (classList_toggle c cs) = negb (classList_contains c cs).
Proof.
  unfold classList_toggle. destruct (classList_contains c cs) eqn:E.
  - rewrite classList_contains_remove. by rewrite bool_decide_true.
  - rewrite classList_contains_add. by rewrite bool_decide_true.
Qed.

Lemma toggleMenu_active b n p :
  b ≠ n → is_Some (dom p !! n) →
  has_class (toggleMenu b n p) n "active" = negb (has_class p n "active").
Proof.
  intros Hne [e He]. unfold toggleMenu.
  rewrite !has_class_update_ne by done. rewrite has_class_update_eq.
  unfold has_class. rewrite He. simpl. apply classList_contains_toggle.
Qed.

Lemma has_class_update_same p m f n c :
  (∀ e, classList (f e) = classList e) →
  has_class (update m f p) n c = has_class p n c.
Proof.
  intros Hf. destruct (decide (m = n)) as [->|Hne].
  - rewrite has_class_update_eq. unfold has_class.
    destruct (dom p !! n); [by rewrite Hf|done].
  - by apply has_class_update_ne.
Qed.

Lemma playClick_has_class btn p n c : has_class (playClick btn p) n c = has_class p n c.
Proof.
  unfold playClick.
  change (has_class
            (update btn (with_innerHTML loadingLabel)
               (update btn (with_style "transform" "scale(0.9)") p)) n c = has_class p n c).
  by rewrite !has_class_update_same.
Qed.





(** *** What [init] installs *)

Lemma foldl_addEventListener {A} (T : A → EventTarget) ty (H : A → Handler) l p :
  listeners (foldl (λ q x, addEventListener (T x) ty (H x) q) p l)
  = listeners p ++ ((λ x, mkListener (T x) ty (H x)) <$> l)
  ∧ dom (foldl (λ q x, addEventListener (T x) ty (H x) q) p l) = dom p.
Proof.
  revert p. induction l as [|x l IH]; intros p; simpl.
  - by rewrite app_nil_r.
  - destruct (IH (addEventListener (T x) ty (H x) p)) as [-> ->]. simpl.
    by rewrite <- app_assoc.
Qed.

Lemma querySelector_dom sel p q : dom q = dom p → querySelector sel q = querySelector sel p.
Proof. intros H. unfold querySelector, querySelectorAll. by rewrite H. Qed.

Lemma querySelectorAll_dom sel p q :
  dom q = dom p → querySelectorAll sel q = querySelectorAll sel p.
Proof. intros H. unfold querySelectorAll. by rewrite H. Qed.

Lemma initStickyHeader_spec p :
  ∃ p1 added,
    initStickyHeader p = Normal p1
    ∧ listeners p1 = listeners p ++ added
    ∧ dom p1 = dom p
    ∧ Forall (λ l, listener_type l = "scroll") added.
Proof.
  unfold initStickyHeader. destruct (querySelector ["header"] p) as [h|]; simpl.
  - eexists _, [_]. split_and!; [done..|]. by repeat constructor.
  - exists p, []. split_and!; [done|by rewrite app_nil_r|done|constructor].
Qed.

Lemma initMobileMenu_spec p b n :
  querySelector ["mobile-toggle"] p = Some b →
  querySelector ["nav-list"] p = Some n →
  ∃ p2,
    initMobileMenu p = Normal p2
    ∧ listeners p2
      = listeners p
        ++ [mkListener (Node b) "click" (ToggleMenu b n)]
        ++ ((λ x, mkListener (Node x) "click" (NavLinkClick b n))
              <$> querySelectorAll ["nav-link"] p)
        ++ [mkListener Document "click" (DocumentClick b n)]
    ∧ dom p2 = dom p.
Proof.
  intros Hb Hn. unfold initMobileMenu. rewrite Hb, Hn. simpl.
  eexists. split; [done|]. simpl.
  destruct (foldl_addEventListener Node "click" (λ _, NavLinkClick b n)
              (querySelectorAll ["nav-link"] p)
              (addEventListener (Node b) "click" (ToggleMenu b n) p)) as [Hl Hd].
  rewrite Hl, Hd. simpl. split; [|done].
  by rewrite <- !app_assoc.
Qed.

Lemma steady_observe n p : steady p (observe n p).
Proof. by apply steady_same. Qed.

Lemma steady_staggerChild p i x : steady p (staggerChild p i x).
Proof.
  unfold staggerChild.
  eapply steady_trans;
    [by apply (steady_update p x (with_classList (classList_add "reveal-up")))|].
  eapply steady_trans; [by eapply (steady_update _ x (with_style _ _))|].
  apply steady_observe.
Qed.

Lemma steady_forEach_stagger l k p : steady p (forEach_from staggerChild k l p).
Proof.
  revert k p. induction l as [|x l IH]; intros k p; simpl; [apply steady_refl|].
  eapply steady_trans; [apply steady_staggerChild|apply IH].
Qed.

Lemma initScrollReveal_spec p :
  ∃ p3, initScrollReveal p = Normal p3 ∧ steady p p3.
Proof.
  unfold initScrollReveal. eexists. split; [done|].
  apply (steady_trans p
           (foldl (λ q el, observe el q) p
              (querySelectorAll ["reveal-up"; "reveal-left"; "reveal-right"] p))).
  - apply (steady_foldl (λ q el, observe el q)). intros q x. apply steady_observe.
  - apply (steady_foldl staggerContainer). intros q c. apply steady_forEach_stagger.
Qed.

Lemma initVideoMockup_spec p :
  ∃ p4,
    initVideoMockup p = Normal p4
    ∧ listeners p4
      = listeners p
        ++ ((λ x, mkListener (Node x) "click" (PlayClick x))
              <$> querySelectorAll ["video-play-btn"] p)
    ∧ dom p4 = dom p.
Proof.
  unfold initVideoMockup. eexists. split; [done|].
  apply (foldl_addEventListener Node "click" PlayClick).
Qed.

Lemma bind_Normal {A B} (a : A) (k : A → Completion B) : (Normal a ≫= k) = k a.
Proof. done. Qed.

(** The listeners of an initialised page that has both menu anchors. *)
Lemma init_listeners d p b n :
  init (load d) = Normal p →
  querySelector ["mobile-toggle"] (load d) = Some b →
  querySelector ["nav-list"] (load d) = Some n →
  ∃ scrolls plays,
    listeners p
    = scrolls
      ++ [mkListener (Node b) "click" (ToggleMenu b n)]
      ++ ((λ x, mkListener (Node x) "click" (NavLinkClick b n))
            <$> querySelectorAll ["nav-link"] (load d))
      ++ [mkListener Document "click" (DocumentClick b n)]
      ++ ((λ x, mkListener (Node x) "click" (PlayClick x)) <$> plays)
    ∧ Forall (λ l, listener_type l = "scroll") scrolls
    ∧ parents p = parents (load d).
Proof.
  intros Hinit Hb Hn. unfold init in Hinit.
  destruct (initStickyHeader_spec (load d)) as (p1 & scrolls & E1 & Hl1 & Hd1 & Hscrolls).
  rewrite E1, bind_Normal in Hinit.
  destruct (initMobileMenu_spec p1 b n) as (p2 & E2 & Hl2 & Hd2).
  { by rewrite (querySelector_dom _ _ _ Hd1). }
  { by rewrite (querySelector_dom _ _ _ Hd1). }
  rewrite E2, bind_Normal in Hinit.
  destruct (initScrollReveal_spec p2) as (p3 & E3 & Hpar3 & Hl3).
  rewrite E3, bind_Normal in Hinit.
  destruct (initVideoMockup_spec p3) as (p4 & E4 & Hl4 & Hd4).
  rewrite E4, bind_Normal in Hinit. injection Hinit as <-.
  exists scrolls, (querySelectorAll ["video-play-btn"] p3).
  split_and!; [|done|].
  - simpl. rewrite Hl4, Hl3, Hl2, Hl1, (querySelectorAll_dom _ _ _ Hd1).
    change (listeners (load d)) with (@nil Listener).
    rewrite app_nil_l, <- !app_assoc. done.
  - unfold parents in *. simpl. by rewrite Hd4, Hpar3, Hd2, Hd1.
Qed.

(** *** The handlers a click on the toggle runs *)

Lemma elem_of_listeners_for p ty tgt h :
  h ∈ listeners_for p ty tgt ↔
  ∃ l, l ∈ listeners p ∧ listener_target l = tgt ∧ listener_type l = ty
       ∧ listener_handler l = h.
Proof.
  unfold listeners_for. rewrite list_elem_of_fmap. split.
  - intros (l & -> & Hl). apply list_elem_of_filter in Hl as [[Ht Hty] Hl]. eauto.
  - intros (l & Hl & Ht & Hty & <-). exists l. split; [done|].
    by apply list_elem_of_filter.
Qed.


Section ToggleClick.
Context (d : list Element) (p : Page) (b n t : nat).
Hypothesis Hinit : init (load d) = Normal p.
Hypothesis Hb : querySelector ["mobile-toggle"] (load d) = Some b.
Hypothesis Hn : querySelector ["nav-list"] (load d) = Some n.
Hypothesis Hon : contains p b t = true.
Hypothesis Hoff :
  ∀ link, link ∈ querySelectorAll ["nav-link"] (load d) → contains p link t = false.




End ToggleClick.

Lemma select_from_lt sel i d x : x ∈ select_from sel i d → x < i + length d.
Proof.
  revert i. induction d as [|e d IH]; intros i; simpl; [by rewrite elem_of_nil|].
  destruct (matches sel e).
  - rewrite elem_of_cons. intros [->|Hx]; [lia|]. apply IH in Hx. lia.
  - intros Hx. apply IH in Hx. lia.
Qed.

Lemma querySelector_is_Some sel p x :
  querySelector sel p = Some x → is_Some (dom p !! x).
Proof.
  unfold querySelector, querySelectorAll. intros Hx.
  apply lookup_lt_is_Some.
  apply (select_from_lt sel 0 (dom p) x).
  destruct (select_from sel 0 (dom p)) as [|y l]; [done|].
  injection Hx as ->. by left.
Qed.




(** ** A note on deliveries *)

(** [reveal_once] relies on the observer reporting a target once in a
    delivery.  Were a delivery to carry two intersecting entries for one
    target, the callback would run its body for both: the class is added
    again, to no effect, and a second counter is started. *)
Example revealCallback_repeated_entry :
  frameRequests (revealCallback [mkEntry 0 true; mkEntry 0 true] (observe 0 counterPage))
  = [mkStep 0 (Some 50%N) "%" None; mkStep 0 (Some 50%N) "%" None].
Proof. reflexivity. Qed.

(** ** The scroll event reaches [handleScroll] *)

Lemma initMobileMenu_clicks p :
  ∃ p2 added,
    initMobileMenu p = Normal p2
    ∧ listeners p2 = listeners p ++ added
    ∧ dom p2 = dom p
    ∧ Forall (λ l, listener_type l = "click") added.
Proof.
  destruct (querySelector ["mobile-toggle"] p) as [b|] eqn:Hb;
    [destruct (querySelector ["nav-list"] p) as [n|] eqn:Hn|].
  - destruct (initMobileMenu_spec p b n Hb Hn) as (p2 & E & Hl & Hd).
    eexists p2, _. split_and!; [done..|].
    repeat first [apply Forall_app; split | apply Forall_cons; split
                 | apply Forall_nil | apply Forall_fmap, Forall_forall; intros ? ?
                 | done ].
  - exists p, []. rewrite initMobileMenu_absent by by right.
    split_and!; [done|by rewrite app_nil_r|done|constructor].
  - exists p, []. rewrite initMobileMenu_absent by by left.
    split_and!; [done|by rewrite app_nil_r|done|constructor].
Qed.

Lemma filter_type_none (ty ty' : string) (t : EventTarget) ls :
  ty ≠ ty' → Forall (λ l, listener_type l = ty') ls →
  filter (λ l, listener_target l = t ∧ listener_type l = ty) ls = [].
Proof.
  intros Hne. induction 1 as [|l ls Hl Hls IH]; [done|].
  rewrite filter_cons, decide_False; [done|]. intros [_ Hty]. congruence.
Qed.

(** On an initialised page with a header, a scroll event to offset [s]
    is one run of [handleScroll] at that offset. *)
Lemma scroll_runs_handleScroll d p header s :
  init (load d) = Normal p →
  querySelector ["header"] (load d) = Some header →
  scroll s p = handleScroll header (with_scrollY s p).
Proof.
  intros Hinit Hh. unfold init in Hinit.
  assert (E1 : initStickyHeader (load d)
               = Normal (addEventListener Window "scroll" (HandleScroll header) (load d))).
  { unfold initStickyHeader. by rewrite Hh. }
  rewrite E1, bind_Normal in Hinit.
  destruct (initMobileMenu_clicks
              (addEventListener Window "scroll" (HandleScroll header) (load d)))
    as (p2 & clicks & E2 & Hl2 & Hd2 & Hclicks).
  rewrite E2, bind_Normal in Hinit.
  destruct (initScrollReveal_spec p2) as (p3 & E3 & Hpar3 & Hl3).
  rewrite E3, bind_Normal in Hinit.
  destruct (initVideoMockup_spec p3) as (p4 & E4 & Hl4 & Hd4).
  rewrite E4, bind_Normal in Hinit. injection Hinit as <-.
  unfold scroll, listeners_for. simpl listeners.
  rewrite Hl4, Hl3, Hl2. simpl listeners.
  rewrite !filter_app.
  rewrite (filter_type_none "scroll" "click" Window clicks) by done.
  rewrite (filter_type_none "scroll" "click" Window (_ <$> _));
    [|done|by apply Forall_fmap, Forall_forall].
  done.
Qed.

(** * Further properties of the script *)

(** ** What each unit writes *)

Lemma differs_only_refl cls attrs html sty e : differs_only cls attrs html sty e e.
Proof. by split_and!. Qed.

Lemma differs_only_trans cls attrs html sty e1 e2 e3 :
  differs_only cls attrs html sty e1 e2 → differs_only cls attrs html sty e2 e3 →
  differs_only cls attrs html sty e1 e3.
Proof.
  intros (Hp & Hc & Ha & Hh & Hs) (Hp' & Hc' & Ha' & Hh' & Hs').
  split_and!.
  - congruence.
  - intros c Hcls. rewrite Hc' by done. by apply Hc.
  - intros k Hk. rewrite Ha' by done. by apply Ha.
  - intros Hhtml. rewrite Hh' by done. by apply Hh.
  - intros k Hk. rewrite Hs' by done. by apply Hs.
Qed.

Lemma differs_only_class_add cls attrs html sty c e :
  c ∈ cls → differs_only cls attrs html sty e (with_classList (classList_add c) e).
Proof.
  intros Hc. split_and!; try done. intros c' Hc'. simpl. unfold classList_add.
  set_solver.
Qed.

Lemma differs_only_class_remove cls attrs html sty c e :
  c ∈ cls → differs_only cls attrs html sty e (with_classList (classList_remove c) e).
Proof.
  intros Hc. split_and!; try done. intros c' Hc'. simpl. unfold classList_remove.
  set_solver.
Qed.

Lemma differs_only_class_toggle cls attrs html sty c e :
  c ∈ cls → differs_only cls attrs html sty e (with_classList (classList_toggle c) e).
Proof.
  intros Hc. unfold classList_toggle. destruct (classList_contains c (classList e)) eqn:E.
  - replace (with_classList _ e) with (with_classList (classList_remove c) e);
      [by apply differs_only_class_remove|].
    unfold with_classList. by rewrite E.
  - replace (with_classList _ e) with (with_classList (classList_add c) e);
      [by apply differs_only_class_add|].
    unfold with_classList. by rewrite E.
Qed.

Lemma differs_only_attribute cls attrs html sty k v e :
  k ∈ attrs → differs_only cls attrs html sty e (with_attribute k v e).
Proof.
  intros Hk. split_and!; try done. intros k' Hk'. simpl.
  apply lookup_insert_ne. intros ->. done.
Qed.

Lemma differs_only_innerHTML cls attrs sty v e :
  differs_only cls attrs true sty e (with_innerHTML v e).
Proof. by split_and!. Qed.

Lemma differs_only_style cls attrs html sty k v e :
  k ∈ sty → differs_only cls attrs html sty e (with_style k v e).
Proof.
  intros Hk. split_and!; try done. intros k' Hk'. simpl.
  apply lookup_insert_ne. intros ->. done.
Qed.

Section Lifts.
Context (R : Element → Element → Prop).
Hypothesis R_refl : ∀ e, R e e.
Hypothesis R_trans : ∀ e1 e2 e3, R e1 e2 → R e2 e3 → R e1 e3.

Lemma lifts_refl p : lifts R p p.
Proof. unfold lifts. induction (dom p); constructor; auto. Qed.

Lemma lifts_trans p q r : lifts R p q → lifts R q r → lifts R p r.
Proof.
  unfold lifts. generalize (dom p), (dom q), (dom r). clear p q r.
  intros l1 l2 l3 H12. revert l3.
  induction H12 as [|x y l1 l2 Hxy H12 IH]; intros l3 H23; inversion H23; subst;
    constructor; eauto.
Qed.

Lemma lifts_same p q : dom q = dom p → lifts R p q.
Proof. unfold lifts. intros ->. apply lifts_refl. Qed.

Lemma lifts_update p n f : (∀ e, R e (f e)) → lifts R p (update n f p).
Proof.
  intros Hf. unfold lifts. simpl. unfold alter. generalize (dom p). clear p.
  intros l. revert n. induction l as [|e l IH]; intros [|n]; simpl; try constructor; auto.
  clear IH. induction l; constructor; auto.
Qed.

Lemma lifts_foldl {A} (f : Page → A → Page) l p :
  (∀ q x, lifts R q (f q x)) → lifts R p (foldl f p l).
Proof.
  intros Hf. revert p. induction l as [|x l IH]; intros p; simpl; [apply lifts_refl|].
  eapply lifts_trans; [apply Hf|apply IH].
Qed.
End Lifts.

Section Footprints.
Context (cls attrs : list string) (html : bool) (sty : list string).

Let F := differs_only cls attrs html sty.

Lemma F_refl e : F e e.
Proof. apply differs_only_refl. Qed.

Lemma F_trans e1 e2 e3 : F e1 e2 → F e2 e3 → F e1 e3.
Proof. apply differs_only_trans. Qed.

Lemma lifts_then p q r : lifts F p q → lifts F q r → lifts F p r.
Proof. apply lifts_trans, F_trans. Qed.

Lemma lifts_fields p q : dom q = dom p → lifts F p q.
Proof. apply lifts_same, F_refl. Qed.

Lemma lifts_handleScroll h p :
  "header-scrolled" ∈ cls → lifts F p (handleScroll h p).
Proof.
  intros Hc. unfold handleScroll. destruct (Qlt_le_dec _ _);
    apply lifts_update; try apply F_refl; intros e.
  - by apply differs_only_class_add.
  - by apply differs_only_class_remove.
Qed.

Lemma lifts_toggleMenu b n p :
  "active" ∈ cls → "aria-expanded" ∈ attrs → lifts F p (toggleMenu b n p).
Proof.
  intros Hc Ha. unfold toggleMenu.
  eapply lifts_then; [|apply lifts_update; [apply F_refl|]; intros e;
                       by apply differs_only_attribute].
  eapply lifts_then; apply lifts_update; try apply F_refl; intros e;
    by apply differs_only_class_toggle.
Qed.

Lemma lifts_playClick btn p :
  html = true → "transform" ∈ sty → lifts F p (playClick btn p).
Proof.
  intros Hh Hs. unfold playClick.
  apply (lifts_then p (update btn (with_style "transform" "scale(0.9)") p)).
  { apply lifts_update; [apply F_refl|]. intros e. by apply differs_only_style. }
  eapply lifts_then; [|by apply lifts_fields].
  eapply lifts_then; [|apply (lifts_update F F_refl _ btn (with_innerHTML loadingLabel))].
  - by apply lifts_fields.
  - intros e. unfold F. rewrite Hh. apply differs_only_innerHTML.
Qed.

Lemma lifts_step c t p : html = true → lifts F p (step c t p).
Proof.
  intros Hh. unfold step.
  assert (Hw : ∀ v e, F e (with_innerHTML v e)).
  { intros v e. unfold F. rewrite Hh. apply differs_only_innerHTML. }
  destruct (Qlt_le_dec _ _).
  - eapply lifts_then; [|by apply lifts_fields].
    apply lifts_update; [apply F_refl|]. intros e. apply Hw.
  - eapply lifts_then; apply lifts_update; try apply F_refl; intros e; apply Hw.
Qed.

Lemma lifts_animationFrame t p : html = true → lifts F p (animationFrame t p).
Proof.
  intros Hh. unfold animationFrame.
  eapply lifts_then; [|apply lifts_foldl; [apply F_refl|apply F_trans|]].
  - by apply lifts_fields.
  - intros q c. by apply lifts_step.
Qed.

Lemma lifts_fire cb p : html = true → "transform" ∈ sty → lifts F p (fire cb p).
Proof.
  intros Hh Hs. destruct cb; simpl.
  - apply lifts_update; [apply F_refl|]. intros e. by apply differs_only_style.
  - eapply lifts_then; [|by apply lifts_fields].
    apply lifts_update; [apply F_refl|]. intros e. unfold F. rewrite Hh.
    apply differs_only_innerHTML.
Qed.

Lemma lifts_run_due D q p : html = true → "transform" ∈ sty → lifts F p (run_due D q p).
Proof.
  intros Hh Hs. revert p. induction q as [|t q IH]; intros p; simpl;
    [by apply lifts_fields|].
  destruct (_ <=? _)%N; [|by apply lifts_fields].
  eapply lifts_then; [by apply lifts_fire|apply IH].
Qed.

Lemma lifts_elapse dt p : html = true → "transform" ∈ sty → lifts F p (elapse dt p).
Proof.
  intros Hh Hs. unfold elapse.
  eapply lifts_then; [by apply lifts_run_due|]. by apply lifts_fields.
Qed.

Lemma lifts_revealEntry p entry : "visible" ∈ cls → lifts F p (revealEntry p entry).
Proof.
  intros Hc. unfold revealEntry. destruct (isIntersecting entry); [|apply lifts_refl, F_refl].
  apply (lifts_then p (update (entry_target entry)
                         (with_classList (classList_add "visible")) p)).
  - apply lifts_update; [apply F_refl|]. intros e. by apply differs_only_class_add.
  - apply lifts_fields. simpl. by destruct (hasAttribute _ _ _).
Qed.

Lemma lifts_revealCallback entries p :
  "visible" ∈ cls → lifts F p (revealCallback entries p).
Proof.
  intros Hc. unfold revealCallback.
  apply lifts_foldl; [apply F_refl|apply F_trans|]. intros q x. by apply lifts_revealEntry.
Qed.

Lemma lifts_staggerChild p i x :
  "reveal-up" ∈ cls → "transitionDelay" ∈ sty → lifts F p (staggerChild p i x).
Proof.
  intros Hc Hs. unfold staggerChild.
  eapply lifts_then; [|by apply lifts_fields].
  eapply lifts_then; apply lifts_update; try apply F_refl; intros e.
  - by apply differs_only_class_add.
  - by apply differs_only_style.
Qed.

(** What [lifts] says about the accessors. *)
Lemma lifts_lookup p q n :
  lifts F p q →
  match dom p !! n, dom q !! n with
  | Some e, Some e' => F e e'
  | None, None => True
  | _, _ => False
  end.
Proof.
  unfold lifts. intros H. revert n. induction H as [|e e' l l' He H IH]; intros [|n];
    simpl; try done. apply IH.
Qed.

Lemma lifts_has_class p q n c :
  lifts F p q → c ∉ cls → has_class q n c = has_class p n c.
Proof.
  intros H Hc. pose proof (lifts_lookup p q n H) as Hn. unfold has_class.
  destruct (dom p !! n) as [e|], (dom q !! n) as [e'|]; try done.
  destruct Hn as (_ & Hcl & _). unfold classList_contains.
  apply bool_decide_ext. by apply Hcl.
Qed.

Lemma lifts_getAttribute p q n k :
  lifts F p q → k ∉ attrs → getAttribute q n k = getAttribute p n k.
Proof.
  intros H Hk. pose proof (lifts_lookup p q n H) as Hn. unfold getAttribute.
  destruct (dom p !! n) as [e|], (dom q !! n) as [e'|]; try done.
  destruct Hn as (_ & _ & Ha & _). simpl. by apply Ha.
Qed.



Lemma lifts_parents p q : lifts F p q → parents q = parents p.
Proof.
  unfold lifts, parents. intros H.
  induction H as [|e e' l l' (Hp & _) H IH]; simpl; [done|]. f_equal; [exact Hp|exact IH].
Qed.
End Footprints.

(** ** The wiring [init] installs, and that events keep it *)

Lemma initStickyHeader_wired b n p :
  ∃ p1 added,
    initStickyHeader p = Normal p1 ∧ dom p1 = dom p
    ∧ listeners p1 = listeners p ++ added
    ∧ Forall (wired_listener b n) added.
Proof.
  unfold initStickyHeader. destruct (querySelector ["header"] p) as [h|]; simpl.
  - eexists _, [_]. split_and!; [done..|]. by repeat constructor.
  - exists p, []. split_and!; [done|done|by rewrite app_nil_r|constructor].
Qed.

Lemma initMobileMenu_wired b n p :
  (∀ b' n', querySelector ["mobile-toggle"] p = Some b' →
            querySelector ["nav-list"] p = Some n' → b' = b ∧ n' = n) →
  ∃ p2 added,
    initMobileMenu p = Normal p2 ∧ dom p2 = dom p
    ∧ listeners p2 = listeners p ++ added
    ∧ Forall (wired_listener b n) added.
Proof.
  intros Hanchors.
  destruct (querySelector ["mobile-toggle"] p) as [b'|] eqn:Hb;
    [destruct (querySelector ["nav-list"] p) as [n'|] eqn:Hn|].
  - destruct (Hanchors b' n' eq_refl eq_refl) as [-> ->].
    destruct (initMobileMenu_spec p b n Hb Hn) as (p2 & E & Hl & Hd).
    eexists p2, _. split_and!; [done..|].
    repeat first [apply Forall_app; split | apply Forall_cons; split
                 | apply Forall_nil | apply Forall_fmap, Forall_forall; intros ? ?
                 | done ].
  - exists p, []. rewrite initMobileMenu_absent by by right.
    split_and!; [done|done|by rewrite app_nil_r|constructor].
  - exists p, []. rewrite initMobileMenu_absent by by left.
    split_and!; [done|done|by rewrite app_nil_r|constructor].
Qed.

Lemma init_wired d p b n :
  init (load d) = Normal p →
  (∀ b' n', querySelector ["mobile-toggle"] (load d) = Some b' →
            querySelector ["nav-list"] (load d) = Some n' → b' = b ∧ n' = n) →
  wired b n p.
Proof.
  intros Hinit Hanchors. unfold init in Hinit.
  destruct (initStickyHeader_wired b n (load d)) as (p1 & a1 & E1 & Hd1 & Hl1 & Ha1).
  rewrite E1, bind_Normal in Hinit.
  destruct (initMobileMenu_wired b n p1) as (p2 & a2 & E2 & Hd2 & Hl2 & Ha2).
  { intros b' n'. rewrite !(querySelector_dom _ _ _ Hd1). apply Hanchors. }
  rewrite E2, bind_Normal in Hinit.
  destruct (initScrollReveal_spec p2) as (p3 & E3 & Hpar3 & Hl3).
  rewrite E3, bind_Normal in Hinit.
  destruct (initVideoMockup_spec p3) as (p4 & E4 & Hl4 & Hd4).
  rewrite E4, bind_Normal in Hinit. injection Hinit as <-.
  unfold wired. simpl. rewrite Hl4, Hl3, Hl2, Hl1. simpl.
  repeat (apply Forall_app; split); try done.
  by apply Forall_fmap, Forall_forall.
Qed.

Lemma steady_step c t p : steady p (step c t p).
Proof.
  unfold step. destruct (Qlt_le_dec _ _).
  - eapply steady_trans; [|by apply steady_same].
    by eapply (steady_update p (step_obj c) (with_innerHTML _)).
  - eapply steady_trans; [by eapply (steady_update p (step_obj c) (with_innerHTML _))|].
    by eapply (steady_update _ (step_obj c) (with_innerHTML _)).
Qed.

Lemma steady_fire cb p : steady p (fire cb p).
Proof.
  destruct cb; simpl.
  - by eapply (steady_update p btn (with_style _ _)).
  - eapply steady_trans; [by eapply (steady_update p btn (with_innerHTML _))|].
    by apply steady_same.
Qed.

Lemma steady_run_due D q p : steady p (run_due D q p).
Proof.
  revert p. induction q as [|t q IH]; intros p; simpl; [by apply steady_same|].
  destruct (_ <=? _)%N; [|by apply steady_same].
  eapply steady_trans; [apply steady_fire|apply IH].
Qed.

Lemma steady_revealEntry p entry : steady p (revealEntry p entry).
Proof.
  unfold revealEntry. destruct (isIntersecting entry); [|apply steady_refl].
  eapply steady_trans;
    [by apply (steady_update p (entry_target entry)
                 (with_classList (classList_add "visible")))|].
  apply steady_same; simpl; by destruct (hasAttribute _ _ _).
Qed.

Lemma steady_dispatch p ev : steady p (dispatch p ev).
Proof.
  destruct ev; simpl.
  - unfold scroll. eapply steady_trans; [|apply steady_foldl; intros; apply steady_run_handler].
    by apply steady_same.
  - apply steady_click.
  - unfold revealCallback. apply steady_foldl. intros. apply steady_revealEntry.
  - unfold animationFrame.
    eapply steady_trans; [|apply steady_foldl; intros; apply steady_step].
    by apply steady_same.
  - unfold elapse. eapply steady_trans; [apply steady_run_due|]. by apply steady_same.
Qed.

Lemma steady_run evs p : steady p (run evs p).
Proof.
  revert p. induction evs as [|ev evs IH]; intros p; [apply steady_refl|].
  rewrite run_cons. eapply steady_trans; [apply steady_dispatch|apply IH].
Qed.

Lemma wired_steady b n p q : steady p q → wired b n p → wired b n q.
Proof. intros [_ Hl]. unfold wired. by rewrite Hl. Qed.

(** On a wired page, the handlers a scroll event runs are
    [handleScroll]s, and a click runs none of them. *)
Lemma wired_handlers b n p ty t h :
  wired b n p → h ∈ listeners_for p ty t →
  match h with
  | HandleScroll _ => ty = "scroll"
  | ToggleMenu b' n' | NavLinkClick b' n' | DocumentClick b' n' =>
      ty = "click" ∧ b' = b ∧ n' = n
  | PlayClick _ => ty = "click"
  end.
Proof.
  intros Hw (l & Hl & _ & <- & <-)%elem_of_listeners_for.
  unfold wired in Hw. rewrite Forall_forall in Hw. apply (Hw l Hl).
Qed.

Lemma lifts_foldl_handlers (R : Element → Element → Prop) (P : Handler → Prop) t hs p :
  (∀ e, R e e) → (∀ e1 e2 e3, R e1 e2 → R e2 e3 → R e1 e3) →
  (∀ q h, P h → lifts R q (run_handler h t q)) →
  Forall P hs → lifts R p (foldl (λ q h, run_handler h t q) p hs).
Proof.
  intros Hrefl Htrans Hstep Hhs. revert p.
  induction Hhs as [|h hs Hh Hhs IH]; intros p; simpl; [by apply lifts_refl|].
  eapply lifts_trans; [done|by apply Hstep|apply IH].
Qed.

Lemma lifts_dispatch b n p ev : wired b n p → lifts (footprint ev) p (dispatch p ev).
Proof.
  intros Hw. destruct ev as [y|target|entries|timestamp|dt]; simpl.
  - unfold scroll.
    apply (lifts_then ["header-scrolled"] [] false [] p (with_scrollY y p));
      [by apply lifts_fields|].
    apply (lifts_foldl_handlers _ (λ h, h ∈ listeners_for p "scroll" Window));
      [apply differs_only_refl|apply differs_only_trans| |by apply Forall_forall].
    intros q h Hh. apply (wired_handlers b n) in Hh; [|done].
    destruct h; [|by destruct Hh as [[=] _]..|discriminate Hh]. simpl.
    apply lifts_handleScroll. by left.
  - unfold click.
    apply (lifts_foldl_handlers _
             (λ h, h ∈ propagation p target ≫= listeners_for p "click"));
      [apply differs_only_refl|apply differs_only_trans| |by apply Forall_forall].
    intros q h (tgt & Hh & _)%list_elem_of_bind.
    apply (wired_handlers b n) in Hh; [|done].
    assert (Htoggle : lifts (differs_only ["active"] ["aria-expanded"] true ["transform"])
                        q (toggleMenu b n q)).
    { apply lifts_toggleMenu; by left. }
    destruct h; simpl.
    + discriminate Hh.
    + by destruct Hh as (_ & -> & ->).
    + destruct Hh as (_ & -> & ->).
      destruct (has_class _ _ _); [done|apply lifts_refl, differs_only_refl].
    + destruct Hh as (_ & -> & ->).
      destruct (_ && _); [done|apply lifts_refl, differs_only_refl].
    + apply lifts_playClick; [done|by left].
  - apply lifts_revealCallback. by left.
  - by apply lifts_animationFrame.
  - apply lifts_elapse; [done|by left].
Qed.

(** ** What [init] leaves alone *)

Lemma quiet_refl p : quiet p p.
Proof. by repeat split. Qed.

Lemma quiet_trans p q r : quiet p q → quiet q r → quiet p r.
Proof.
  intros [(?&?&?&?&?&?) ?] [(?&?&?&?&?&?) ?]. repeat split; congruence.
Qed.

Lemma quiet_foldl {A} (f : Page → A → Page) l p :
  (∀ q x, quiet q (f q x)) → quiet p (foldl f p l).
Proof.
  intros Hf. revert p. induction l as [|x l IH]; intros p; simpl; [apply quiet_refl|].
  eapply quiet_trans; [apply Hf|apply IH].
Qed.

Lemma quiet_forEach_stagger l k p : quiet p (forEach_from staggerChild k l p).
Proof.
  revert k p. induction l as [|x l IH]; intros k p; simpl; [apply quiet_refl|].
  eapply quiet_trans; [|apply IH]. by repeat split.
Qed.

Lemma lifts_forEach_stagger cls attrs html sty l k p :
  "reveal-up" ∈ cls → "transitionDelay" ∈ sty →
  lifts (differs_only cls attrs html sty) p (forEach_from staggerChild k l p).
Proof.
  intros Hc Hs. revert k p. induction l as [|x l IH]; intros k p; simpl.
  - apply lifts_refl, differs_only_refl.
  - eapply lifts_then; [by apply lifts_staggerChild|apply IH].
Qed.

Lemma initStickyHeader_quiet p p1 : initStickyHeader p = Normal p1 → quiet p p1.
Proof.
  unfold initStickyHeader. destruct (querySelector ["header"] p); simpl;
    intros [= <-]; by repeat split.
Qed.

Lemma initMobileMenu_quiet p p2 : initMobileMenu p = Normal p2 → quiet p p2.
Proof.
  unfold initMobileMenu.
  destruct (querySelector ["mobile-toggle"] p) as [b|]; simpl;
    [destruct (querySelector ["nav-list"] p) as [n|]; simpl|];
    intros [= <-]; try apply quiet_refl.
  apply (quiet_trans _
           (foldl (λ q link, addEventListener (Node link) "click" (NavLinkClick b n) q)
              (addEventListener (Node b) "click" (ToggleMenu b n) p)
              (querySelectorAll ["nav-link"] p))); [|by repeat split].
  apply (quiet_trans _ (addEventListener (Node b) "click" (ToggleMenu b n) p));
    [by repeat split|].
  apply (quiet_foldl (λ q link, addEventListener (Node link) "click" (NavLinkClick b n) q)).
  intros q x. by repeat split.
Qed.

Lemma initScrollReveal_footprint p p3 :
  initScrollReveal p = Normal p3 →
  lifts (differs_only ["reveal-up"] [] false ["transitionDelay"]) p p3 ∧ quiet p p3.
Proof.
  unfold initScrollReveal. intros [= <-].
  set (p1 := foldl (λ q el, observe el q) p _).
  assert (H1 : dom p1 = dom p ∧ quiet p p1).
  { split.
    - unfold p1. apply (dom_foldl_observe).
    - apply (quiet_foldl (λ q el, observe el q)). intros q x. by repeat split. }
  destruct H1 as [Hd1 Hq1].
  assert (H2 : ∀ cs q,
             lifts (differs_only ["reveal-up"] [] false ["transitionDelay"]) q
               (foldl staggerContainer q cs)).
  { induction cs as [|c cs IH]; intros q; simpl.
    - apply lifts_refl, differs_only_refl.
    - eapply lifts_then; [|apply IH]. apply lifts_forEach_stagger; by left. }
  split.
  - eapply lifts_then; [|apply H2]. by apply lifts_fields.
  - eapply quiet_trans; [exact Hq1|].
    apply (quiet_foldl staggerContainer). intros q c. apply quiet_forEach_stagger.
Qed.

Lemma initVideoMockup_quiet p p4 : initVideoMockup p = Normal p4 → quiet p p4.
Proof.
  unfold initVideoMockup. intros [= <-].
  apply (quiet_foldl (λ q btn, addEventListener (Node btn) "click" (PlayClick btn) q)).
  intros q x. by repeat split.
Qed.

Lemma init_effect p :
  ∃ p', init p = Normal p'
        ∧ lifts (differs_only ["reveal-up"] [] false ["transitionDelay"]) p p'
        ∧ same_pending p p'
        ∧ console p' = console p ++ [loadedMessage].
Proof.
  unfold init.
  destruct (initStickyHeader_spec p) as (p1 & a1 & E1 & _ & Hd1 & _).
  rewrite E1, bind_Normal.
  destruct (initMobileMenu_clicks p1) as (p2 & a2 & E2 & _ & Hd2 & _).
  rewrite E2, bind_Normal.
  destruct (initScrollReveal_spec p2) as (p3 & E3 & _).
  rewrite E3, bind_Normal.
  destruct (initVideoMockup_spec p3) as (p4 & E4 & _ & Hd4).
  rewrite E4, bind_Normal.
  eexists. split; [done|].
  apply initStickyHeader_quiet in E1. apply initMobileMenu_quiet in E2.
  apply initScrollReveal_footprint in E3 as [Hl3 Hq3].
  apply initVideoMockup_quiet in E4.
  destruct (quiet_trans _ _ _ (quiet_trans _ _ _ (quiet_trans _ _ _ E1 E2) Hq3) E4)
    as [Hs Hc].
  split_and!.
  - apply (lifts_then _ _ _ _ p p2); [apply lifts_fields; congruence|].
    apply (lifts_then _ _ _ _ p2 p3); [exact Hl3|].
    apply lifts_fields. exact Hd4.
  - exact Hs.
  - simpl. by rewrite Hc.
Qed.


(** ** The page after [init] *)

Lemma init_boot d : init (load d) = Normal (boot d).
Proof.
  unfold boot. destruct (init_effect (load d)) as (p' & E & _). by rewrite E.
Qed.

Lemma boot_wired d : ∃ b n, wired b n (boot d).
Proof.
  destruct (querySelector ["mobile-toggle"] (load d)) as [b|] eqn:Hb;
    [destruct (querySelector ["nav-list"] (load d)) as [n|] eqn:Hn|].
  - exists b, n. apply (init_wired d); [apply init_boot|]. intros b' n' ? ?.
    split; congruence.
  - exists 0, 0. apply (init_wired d); [apply init_boot|]. intros b' n' ? ?. congruence.
  - exists 0, 0. apply (init_wired d); [apply init_boot|]. intros b' n' ? ?. congruence.
Qed.

Lemma boot_parents d : parents (boot d) = parents (load d).
Proof.
  destruct (init_effect (load d)) as (p' & E & Hl & _).
  pose proof (init_boot d) as E'. rewrite E in E'. injection E' as ->.
  apply (lifts_parents _ _ _ _ _ _ Hl).
Qed.

Lemma reach_is_Some d evs x :
  is_Some (dom (load d) !! x) → is_Some (dom (run evs (boot d)) !! x).
Proof.
  intros Hx. destruct (steady_run evs (boot d)) as [Hpar _].
  apply lookup_lt_is_Some.
  rewrite (parents_length _ _ Hpar), (parents_length _ _ (boot_parents d)).
  by apply lookup_lt_is_Some.
Qed.

Lemma reach_wired d evs : ∃ b n, wired b n (run evs (boot d)).
Proof.
  destruct (boot_wired d) as (b & n & Hw). exists b, n.
  apply (wired_steady b n (boot d)); [apply steady_run|exact Hw].
Qed.


Lemma boot_scroll_listeners d header :
  querySelector ["header"] (load d) = Some header →
  listeners_for (boot d) "scroll" Window = [HandleScroll header].
Proof.
  intros Hh. pose proof (init_boot d) as Hinit. unfold init in Hinit.
  assert (E1 : initStickyHeader (load d)
               = Normal (addEventListener Window "scroll" (HandleScroll header) (load d))).
  { unfold initStickyHeader. by rewrite Hh. }
  rewrite E1, bind_Normal in Hinit.
  destruct (initMobileMenu_clicks
              (addEventListener Window "scroll" (HandleScroll header) (load d)))
    as (p2 & clicks & E2 & Hl2 & Hd2 & Hclicks).
  rewrite E2, bind_Normal in Hinit.
  destruct (initScrollReveal_spec p2) as (p3 & E3 & Hpar3 & Hl3).
  rewrite E3, bind_Normal in Hinit.
  destruct (initVideoMockup_spec p3) as (p4 & E4 & Hl4 & Hd4).
  rewrite E4, bind_Normal in Hinit. injection Hinit as <-.
  unfold listeners_for. simpl listeners.
  rewrite Hl4, Hl3, Hl2. simpl listeners.
  rewrite !filter_app.
  rewrite (filter_type_none "scroll" "click" Window clicks) by done.
  rewrite (filter_type_none "scroll" "click" Window (_ <$> _));
    [|done|by apply Forall_fmap, Forall_forall].
  done.
Qed.

Lemma has_class_handleScroll header p :
  is_Some (dom p !! header) →
  has_class (handleScroll header p) header "header-scrolled" = true
  ↔ (CONFIG.scrollThreshold < scrollY p)%Q.
Proof.
  intros [e He]. unfold handleScroll.
  destruct (Qlt_le_dec CONFIG.scrollThreshold (scrollY p)) as [Hlt|Hle];
    rewrite has_class_update_eq; simpl; rewrite He; simpl.
  - rewrite classList_contains_add, bool_decide_true by done. simpl. done.
  - rewrite classList_contains_remove, bool_decide_true by done. simpl.
    split; [done|]. intros Hs. exfalso. lra.
Qed.

Lemma other_events_keep_header d header evs post :
  Forall (λ ev, ∀ y, ev ≠ Scroll y) post →
  has_class (run (evs ++ post) (boot d)) header "header-scrolled"
  = has_class (run evs (boot d)) header "header-scrolled".
Proof.
  intros Hpost. revert evs. induction Hpost as [|ev post Hev Hpost IH]; intros evs.
  - by rewrite app_nil_r.
  - rewrite (cons_middle ev evs post), app_assoc, IH, run_app.
    change (run [ev] (run evs (boot d))) with (dispatch (run evs (boot d)) ev).
    destruct (reach_wired d evs) as (b & n & Hw).
    pose proof (lifts_dispatch b n _ ev Hw) as Hl.
    destruct ev as [y| | | |]; simpl footprint in Hl.
    + by destruct (Hev y).
    + apply (lifts_has_class _ _ _ _ _ _ _ _ Hl). set_solver.
    + apply (lifts_has_class _ _ _ _ _ _ _ _ Hl). set_solver.
    + apply (lifts_has_class _ _ _ _ _ _ _ _ Hl). set_solver.
    + apply (lifts_has_class _ _ _ _ _ _ _ _ Hl). set_solver.
Qed.

(** X3. On the initialised page, after any events, the header has the
    class [header-scrolled] exactly when the last scroll event was at an
    offset above the threshold: clicks, deliveries, frames and timers in
    between or afterwards do not change it. *)
Theorem header_follows_last_scroll (d : list Element) (header : nat)
    (pre post : list Event) (s : Q) :
  querySelector ["header"] (load d) = Some header →
  Forall (λ ev, ∀ y, ev ≠ Scroll y) post →
  has_class (run (pre ++ Scroll s :: post) (boot d)) header "header-scrolled" = true
  ↔ (CONFIG.scrollThreshold < s)%Q.
Proof.
  intros Hh Hpost.
  rewrite (cons_middle (Scroll s) pre post), app_assoc.
  rewrite (other_events_keep_header d header _ post Hpost), run_app.
  change (run [Scroll s] (run pre (boot d))) with (scroll s (run pre (boot d))).
  unfold scroll.
  assert (Hls : listeners_for (run pre (boot d)) "scroll" Window = [HandleScroll header]).
  { destruct (steady_run pre (boot d)) as [_ Hl]. unfold listeners_for. rewrite Hl.
    by apply boot_scroll_listeners. }
  rewrite Hls. simpl.
  apply (has_class_handleScroll header (with_scrollY s (run pre (boot d)))).
  apply (reach_is_Some d pre). by apply (querySelector_is_Some ["header"]).
Qed.

Lemma header_follows_last_scroll_witness :
  has_class (run ([Click 2; Scroll 10] ++ Scroll 51 :: [Click 2; Elapse 900])
               (boot menuPage)) 0 "header-scrolled" = true
  ↔ (CONFIG.scrollThreshold < 51)%Q.
Proof.
  apply (header_follows_last_scroll menuPage 0 [Click 2; Scroll 10] [Click 2; Elapse 900] 51).
  - reflexivity.
  - repeat constructor; discriminate.
Defined.

(** ** The menu under every kind of click *)

Lemma getAttribute_update_ne p m n f k :
  m ≠ n → getAttribute (update m f p) n k = getAttribute p n k.
Proof. intros Hne. unfold getAttribute. by rewrite lookup_update_ne. Qed.

Lemma getAttribute_set p n k v :
  is_Some (dom p !! n) → getAttribute (update n (with_attribute k v) p) n k = Some v.
Proof.
  intros [e He]. unfold getAttribute. rewrite lookup_update_eq, He. simpl.
  apply lookup_insert_eq.
Qed.

Lemma toggleMenu_button b n p :
  b ≠ n → is_Some (dom p !! b) →
  has_class (toggleMenu b n p) b "active" = negb (has_class p b "active").
Proof.
  intros Hne [e He]. unfold toggleMenu.
  rewrite (has_class_update_same _ b (with_attribute _ _)) by done.
  rewrite has_class_update_eq, lookup_update_ne by done.
  unfold has_class. rewrite He. simpl. apply classList_contains_toggle.
Qed.

Lemma toggleMenu_aria b n p :
  is_Some (dom p !! b) →
  getAttribute (toggleMenu b n p) b "aria-expanded"
  = Some (Boolean_toString (negb (has_class p n "active"))).
Proof.
  intros Hb. unfold toggleMenu. apply getAttribute_set.
  by rewrite !is_Some_update.
Qed.

Lemma toggleMenu_in_step b n p :
  b ≠ n → is_Some (dom p !! b) → is_Some (dom p !! n) →
  menu_in_step b n p → menu_in_step b n (toggleMenu b n p).
Proof.
  intros Hne Hb Hn [Hc _]. split.
  - rewrite toggleMenu_button, toggleMenu_active by done. by rewrite Hc.
  - rewrite toggleMenu_aria, toggleMenu_active by done. done.
Qed.

Lemma lifts_in_step cls attrs html sty b n p q :
  lifts (differs_only cls attrs html sty) p q →
  "active" ∉ cls → "aria-expanded" ∉ attrs →
  menu_in_step b n p → menu_in_step b n q.
Proof.
  intros Hl Hc Ha [H1 H2]. unfold menu_in_step.
  rewrite !(lifts_has_class _ _ _ _ _ _ _ _ Hl Hc).
  by rewrite (lifts_getAttribute _ _ _ _ _ _ _ _ Hl Ha).
Qed.

Lemma is_Some_steady p q x : steady p q → is_Some (dom p !! x) → is_Some (dom q !! x).
Proof.
  intros [Hpar _] Hx. apply lookup_lt_is_Some. rewrite (parents_length _ _ Hpar).
  by apply lookup_lt_is_Some.
Qed.

Lemma run_handler_in_step b n t h p :
  b ≠ n → is_Some (dom p !! b) → is_Some (dom p !! n) →
  (h = ToggleMenu b n ∨ closing_handler b n h) →
  menu_in_step b n p → menu_in_step b n (run_handler h t p).
Proof.
  intros Hne Hb Hn [->|[->|[->|[btn ->]]]] Hs; simpl.
  - by apply toggleMenu_in_step.
  - destruct (has_class p n "active"); [by apply toggleMenu_in_step|done].
  - destruct (_ && _); [by apply toggleMenu_in_step|done].
  - apply (lifts_in_step [] [] true ["transform"] b n p); [|set_solver..|done].
    apply lifts_playClick; [done|by left].
Qed.

Lemma foldl_handlers_in_step b n t hs p :
  b ≠ n → is_Some (dom p !! b) → is_Some (dom p !! n) →
  Forall (λ h, h = ToggleMenu b n ∨ closing_handler b n h) hs →
  menu_in_step b n p → menu_in_step b n (foldl (λ q h, run_handler h t q) p hs).
Proof.
  intros Hne Hb Hn Hhs. revert p Hb Hn.
  induction Hhs as [|h hs Hh Hhs IH]; intros p Hb Hn Hs; simpl; [done|].
  pose proof (steady_run_handler h t p) as Hst.
  apply IH; [by apply (is_Some_steady p)..|by apply run_handler_in_step].
Qed.

Lemma wired_click_handlers b n p t :
  wired b n p →
  Forall (λ h, h = ToggleMenu b n ∨ closing_handler b n h)
    (propagation p t ≫= listeners_for p "click").
Proof.
  intros Hw. apply Forall_forall. intros h (tgt & Hh & _)%list_elem_of_bind.
  pose proof (wired_handlers b n p "click" tgt h Hw Hh) as Hcase.
  destruct h as [x|b' n'|b' n'|b' n'|btn].
  - discriminate Hcase.
  - destruct Hcase as (_ & -> & ->). by left.
  - destruct Hcase as (_ & -> & ->). right. by left.
  - destruct Hcase as (_ & -> & ->). right. right. by left.
  - right. right. right. by eexists.
Qed.

Lemma dispatch_in_step b n p ev :
  wired b n p → b ≠ n → is_Some (dom p !! b) → is_Some (dom p !! n) →
  menu_in_step b n p → menu_in_step b n (dispatch p ev).
Proof.
  intros Hw Hne Hb Hn Hs.
  pose proof (lifts_dispatch b n p ev Hw) as Hl.
  destruct ev as [y|t|entries|ts|dt]; simpl footprint in Hl.
  - apply (lifts_in_step _ _ _ _ b n p _ Hl); [set_solver..|done].
  - simpl. unfold click. apply foldl_handlers_in_step; try done.
    by apply wired_click_handlers.
  - apply (lifts_in_step _ _ _ _ b n p _ Hl); [set_solver..|done].
  - apply (lifts_in_step _ _ _ _ b n p _ Hl); [set_solver..|done].
  - apply (lifts_in_step _ _ _ _ b n p _ Hl); [set_solver..|done].
Qed.

(** X4. If the toggle button and the navigation list are two elements and
    the document is loaded with the button in step with the menu (both or
    neither [active], [aria-expanded] saying which), they are in step
    after [init] and after every sequence of events. *)
Theorem menu_stays_in_step (d : list Element) (menuBtn navList : nat) (evs : list Event) :
  querySelector ["mobile-toggle"] (load d) = Some menuBtn →
  querySelector ["nav-list"] (load d) = Some navList →
  menuBtn ≠ navList →
  menu_in_step menuBtn navList (load d) →
  menu_in_step menuBtn navList (run evs (boot d)).
Proof.
  intros Hb Hn Hne Hs.
  assert (Hw : wired menuBtn navList (boot d)).
  { apply (init_wired d); [apply init_boot|]. intros b' n' ? ?. split; congruence. }
  assert (Hs' : menu_in_step menuBtn navList (boot d)).
  { destruct (init_effect (load d)) as (p' & E & Hl & _).
    pose proof (init_boot d) as E'. rewrite E in E'. injection E' as ->.
    apply (lifts_in_step _ _ _ _ _ _ _ _ Hl); [set_solver..|done]. }
  assert (Hsb : is_Some (dom (boot d) !! menuBtn)).
  { apply (reach_is_Some d []). by apply (querySelector_is_Some ["mobile-toggle"]). }
  assert (Hsn : is_Some (dom (boot d) !! navList)).
  { apply (reach_is_Some d []). by apply (querySelector_is_Some ["nav-list"]). }
  clear Hs. generalize dependent (boot d). intros p Hw Hs Hsb Hsn.
  revert p Hw Hs Hsb Hsn. induction evs as [|ev evs IH]; intros p Hw Hs Hsb Hsn; [done|].
  rewrite run_cons. pose proof (steady_dispatch p ev) as Hst.
  apply IH.
  - by apply (wired_steady _ _ p).
  - by apply dispatch_in_step.
  - by apply (is_Some_steady p).
  - by apply (is_Some_steady p).
Qed.

Lemma menu_stays_in_step_witness :
  menu_in_step 1 3
    (run [Click 2; Scroll 60; Click 4; Click 1; Elapse 10] (boot labelledMenuPage)).
Proof.
  apply (menu_stays_in_step labelledMenuPage 1 3).
  - reflexivity.
  - reflexivity.
  - lia.
  - split; reflexivity.
Defined.

(** *** Which handlers a click runs *)

Lemma boot_listeners d b n :
  querySelector ["mobile-toggle"] (load d) = Some b →
  querySelector ["nav-list"] (load d) = Some n →
  ∃ scrolls plays,
    listeners (boot d)
    = scrolls
      ++ [mkListener (Node b) "click" (ToggleMenu b n)]
      ++ ((λ x, mkListener (Node x) "click" (NavLinkClick b n))
            <$> querySelectorAll ["nav-link"] (load d))
      ++ [mkListener Document "click" (DocumentClick b n)]
      ++ ((λ x, mkListener (Node x) "click" (PlayClick x)) <$> plays)
    ∧ Forall (λ l, listener_type l = "scroll") scrolls.
Proof.
  intros Hb Hn.
  destruct (init_listeners d (boot d) b n (init_boot d) Hb Hn) as (s & pl & H & Hs & _).
  by exists s, pl.
Qed.

Lemma elem_of_propagation_node p t x : Node x ∈ propagation p t ↔ x ∈ path p t.
Proof.
  unfold propagation. rewrite elem_of_app, list_elem_of_fmap. split.
  - intros [(y & [= ->] & Hy)|H]; [done|]. set_solver.
  - intros Hx. left. by exists x.
Qed.

Lemma contains_boot d a t : contains (boot d) a t = contains (load d) a t.
Proof. apply contains_parents, boot_parents. Qed.

Lemma contains_true p a t : contains p a t = true ↔ a ∈ path p t.
Proof. unfold contains. apply bool_decide_eq_true. Qed.

(** The handlers a click runs on the initialised page: the toggle's when
    the target is inside the toggle, a link's when it is inside a link,
    the document's always, and those of play buttons. *)
Lemma click_handler_cases d b n t h :
  querySelector ["mobile-toggle"] (load d) = Some b →
  querySelector ["nav-list"] (load d) = Some n →
  h ∈ propagation (boot d) t ≫= listeners_for (boot d) "click" →
  (h = ToggleMenu b n ∧ contains (load d) b t = true)
  ∨ (h = NavLinkClick b n
     ∧ ∃ link, link ∈ querySelectorAll ["nav-link"] (load d)
               ∧ contains (load d) link t = true)
  ∨ h = DocumentClick b n
  ∨ ∃ btn, h = PlayClick btn.
Proof.
  intros Hb Hn (tgt & Hh & Htgt)%list_elem_of_bind.
  destruct (boot_listeners d b n Hb Hn) as (scrolls & plays & HL & Hscrolls).
  apply elem_of_listeners_for in Hh as (l & Hl & <- & Hty & <-).
  rewrite HL in Hl. rewrite !elem_of_app in Hl.
  destruct Hl as [Hl|[Hl|[Hl|[Hl|Hl]]]].
  - rewrite Forall_forall in Hscrolls. apply Hscrolls in Hl. congruence.
  - apply list_elem_of_singleton in Hl as ->. left. split; [done|].
    rewrite <- contains_boot. apply contains_true. by apply elem_of_propagation_node.
  - apply list_elem_of_fmap in Hl as (x & -> & Hx). right. left. split; [done|].
    exists x. split; [done|].
    rewrite <- contains_boot. apply contains_true. by apply elem_of_propagation_node.
  - apply list_elem_of_singleton in Hl as ->. right. right. by left.
  - apply list_elem_of_fmap in Hl as (x & -> & Hx). right. right. right. by eexists.
Qed.

Lemma document_click_runs d b n t :
  querySelector ["mobile-toggle"] (load d) = Some b →
  querySelector ["nav-list"] (load d) = Some n →
  DocumentClick b n ∈ propagation (boot d) t ≫= listeners_for (boot d) "click".
Proof.
  intros Hb Hn. apply list_elem_of_bind. exists Document. split.
  - apply elem_of_listeners_for.
    exists (mkListener Document "click" (DocumentClick b n)). split_and!; [|done..].
    destruct (boot_listeners d b n Hb Hn) as (scrolls & plays & -> & _).
    rewrite !elem_of_app. right. right. right. left. by left.
  - unfold propagation. set_solver.
Qed.

Lemma link_click_runs d b n t link :
  querySelector ["mobile-toggle"] (load d) = Some b →
  querySelector ["nav-list"] (load d) = Some n →
  link ∈ querySelectorAll ["nav-link"] (load d) →
  contains (load d) link t = true →
  NavLinkClick b n ∈ propagation (boot d) t ≫= listeners_for (boot d) "click".
Proof.
  intros Hb Hn Hlink Hin. apply list_elem_of_bind. exists (Node link). split.
  - apply elem_of_listeners_for.
    exists (mkListener (Node link) "click" (NavLinkClick b n)). split_and!; [|done..].
    destruct (boot_listeners d b n Hb Hn) as (scrolls & plays & -> & _).
    rewrite !elem_of_app. right. right. left.
    apply list_elem_of_fmap. by exists link.
  - apply elem_of_propagation_node. apply contains_true. by rewrite contains_boot.
Qed.

(** *** What those handlers do to the menu *)

Lemma run_handler_closed b n t h p :
  closing_handler b n h → b ≠ n → is_Some (dom p !! n) →
  has_class p n "active" = false →
  has_class (run_handler h t p) n "active" = false.
Proof.
  intros [->|[->|[btn ->]]] Hne Hn Hc; simpl.
  - by rewrite Hc.
  - by rewrite Hc, andb_false_r.
  - by rewrite playClick_has_class.
Qed.

Lemma foldl_handlers_closed b n t hs p :
  Forall (closing_handler b n) hs → b ≠ n → is_Some (dom p !! n) →
  has_class p n "active" = false →
  has_class (foldl (λ q h, run_handler h t q) p hs) n "active" = false.
Proof.
  intros Hhs Hne. revert p. induction Hhs as [|h hs Hh Hhs IH]; intros p Hn Hc; simpl;
    [done|].
  apply IH.
  - apply (is_Some_steady p); [apply steady_run_handler|done].
  - by apply (run_handler_closed b n).
Qed.

Lemma run_handler_closes b n t h p :
  b ≠ n → is_Some (dom p !! n) →
  h = NavLinkClick b n
  ∨ (h = DocumentClick b n ∧ contains p n t = false ∧ contains p b t = false) →
  has_class (run_handler h t p) n "active" = false.
Proof.
  intros Hne Hn [->|(-> & Hon & Hob)]; simpl.
  - destruct (has_class p n "active") eqn:Hc; [|done].
    by rewrite (toggleMenu_active b n p Hne Hn), Hc.
  - rewrite Hon, Hob. simpl.
    destruct (has_class p n "active") eqn:Hc; [|done].
    by rewrite (toggleMenu_active b n p Hne Hn), Hc.
Qed.

Lemma foldl_handlers_closes b n t hs p h :
  Forall (closing_handler b n) hs → b ≠ n → is_Some (dom p !! n) →
  h ∈ hs →
  h = NavLinkClick b n
  ∨ (h = DocumentClick b n ∧ contains p n t = false ∧ contains p b t = false) →
  has_class (foldl (λ q h, run_handler h t q) p hs) n "active" = false.
Proof.
  intros Hhs Hne. revert p.
  induction Hhs as [|h' hs Hh' Hhs IH]; intros p Hn Hin Hh; [by apply elem_of_nil in Hin|].
  simpl. pose proof (steady_run_handler h' t p) as Hst.
  apply elem_of_cons in Hin as [<-|Hin].
  - apply (foldl_handlers_closed b n); [done..|by apply (is_Some_steady p)|].
    by apply (run_handler_closes b n).
  - apply IH; [by apply (is_Some_steady p)|done|].
    destruct Hst as [Hpar _]. by rewrite !(contains_parents _ _ _ _ Hpar).
Qed.


Section Clicks.
Context (d : list Element) (menuBtn navList target : nat) (evs : list Event).
Hypothesis Hb : querySelector ["mobile-toggle"] (load d) = Some menuBtn.
Hypothesis Hn : querySelector ["nav-list"] (load d) = Some navList.
Hypothesis Hoff : contains (load d) menuBtn target = false.

Lemma reach_click_handlers :
  propagation (run evs (boot d)) target ≫= listeners_for (run evs (boot d)) "click"
  = propagation (boot d) target ≫= listeners_for (boot d) "click".
Proof. apply click_handlers_steady, steady_run. Qed.

Lemma reach_contains a : contains (run evs (boot d)) a target = contains (load d) a target.
Proof.
  destruct (steady_run evs (boot d)) as [Hpar _].
  by rewrite (contains_parents _ _ _ _ Hpar), contains_boot.
Qed.

Lemma off_toggle_handlers :
  Forall (closing_handler menuBtn navList)
    (propagation (boot d) target ≫= listeners_for (boot d) "click").
Proof.
  apply Forall_forall. intros h Hh.
  destruct (click_handler_cases d menuBtn navList target h Hb Hn Hh)
    as [[_ Hon]|[[-> _]|[->|[btn ->]]]].
  - congruence.
  - by left.
  - right. by left.
  - right. right. by eexists.
Qed.

(** X5. A click on a navigation link (on it or inside it, and not inside
    the toggle) leaves the menu closed, whatever happened before. *)
Theorem link_click_closes_menu (link : nat) :
  menuBtn ≠ navList →
  link ∈ querySelectorAll ["nav-link"] (load d) →
  contains (load d) link target = true →
  has_class (click target (run evs (boot d))) navList "active" = false.
Proof.
  intros Hne Hlink Hin. unfold click. rewrite reach_click_handlers.
  apply (foldl_handlers_closes menuBtn navList target _ _ (NavLinkClick menuBtn navList)).
  - exact off_toggle_handlers.
  - exact Hne.
  - apply reach_is_Some. by apply (querySelector_is_Some ["nav-list"]).
  - by apply (link_click_runs d menuBtn navList target link).
  - by left.
Qed.

(** X6. A click outside the navigation list and outside the toggle
    leaves the menu closed, whatever happened before. *)
Theorem outside_click_closes_menu :
  menuBtn ≠ navList →
  contains (load d) navList target = false →
  has_class (click target (run evs (boot d))) navList "active" = false.
Proof.
  intros Hne Hout. unfold click. rewrite reach_click_handlers.
  apply (foldl_handlers_closes menuBtn navList target _ _ (DocumentClick menuBtn navList)).
  - exact off_toggle_handlers.
  - exact Hne.
  - apply reach_is_Some. by apply (querySelector_is_Some ["nav-list"]).
  - by apply document_click_runs.
  - right. by rewrite !reach_contains.
Qed.

End Clicks.

Lemma link_click_closes_menu_witness :
  has_class (run [Click 2] (boot menuPage)) 3 "active" = true
  ∧ has_class (click 4 (run [Click 2] (boot menuPage))) 3 "active" = false.
Proof.
  split; [reflexivity|].
  apply (link_click_closes_menu menuPage 1 3 4 [Click 2] eq_refl eq_refl eq_refl 4).
  - lia.
  - vm_compute. by left.
  - reflexivity.
Defined.

Lemma outside_click_closes_menu_witness :
  has_class (run [Click 2] (boot menuPage)) 3 "active" = true
  ∧ has_class (click 0 (run [Click 2] (boot menuPage))) 3 "active" = false.
Proof.
  split; [reflexivity|].
  apply (outside_click_closes_menu menuPage 1 3 0 [Click 2] eq_refl eq_refl eq_refl).
  - lia.
  - reflexivity.
Defined.


(** ** What the observer is given *)







(** ** Which counters a delivery starts *)

Lemma revealEntry_getAttribute p entry n k :
  getAttribute (revealEntry p entry) n k = getAttribute p n k.
Proof.
  apply (lifts_getAttribute ["visible"] [] false [] p); [|apply not_elem_of_nil].
  apply lifts_revealEntry. by left.
Qed.

Lemma revealCallback_getAttribute entries p n k :
  getAttribute (revealCallback entries p) n k = getAttribute p n k.
Proof.
  apply (lifts_getAttribute ["visible"] [] false [] p); [|apply not_elem_of_nil].
  apply lifts_revealCallback. by left.
Qed.

Lemma counter_of_ext p q obj :
  (∀ n k, getAttribute q n k = getAttribute p n k) → counter_of q obj = counter_of p obj.
Proof. intros H. unfold counter_of. by rewrite !H. Qed.

Lemma counted_in_ext p q entries :
  (∀ n k, getAttribute q n k = getAttribute p n k) →
  counted_in q entries = counted_in p entries.
Proof.
  intros H. unfold counted_in. apply list_filter_iff. intros n.
  unfold hasAttribute. by rewrite H.
Qed.

Lemma revealEntry_frameRequests p entry :
  frameRequests (revealEntry p entry)
  = frameRequests p ++ (counter_of p <$> counted_in p [entry]).
Proof.
  unfold revealEntry, counted_in, revealed_in. rewrite filter_cons.
  destruct (isIntersecting entry) eqn:Hi.
  - rewrite decide_True by done. simpl.
    set (p1 := update (entry_target entry) (with_classList (classList_add "visible")) p).
    assert (Ha : ∀ k, getAttribute p1 (entry_target entry) k
                      = getAttribute p (entry_target entry) k).
    { intros k. unfold p1, getAttribute. rewrite lookup_update_eq.
      by destruct (dom p !! entry_target entry). }
    assert (Hh : hasAttribute p1 (entry_target entry) "data-count"
                 = hasAttribute p (entry_target entry) "data-count").
    { unfold hasAttribute. by rewrite Ha. }
    rewrite Hh, filter_cons.
    destruct (hasAttribute p (entry_target entry) "data-count") eqn:Hc.
    + rewrite decide_True by done. simpl. unfold counter_of. by rewrite !Ha.
    + rewrite decide_False by done. simpl. by rewrite app_nil_r.
  - rewrite decide_False by (by intros [=]). simpl. by rewrite app_nil_r.
Qed.

Lemma revealCallback_frameRequests entries p :
  frameRequests (revealCallback entries p)
  = frameRequests p ++ (counter_of p <$> counted_in p entries).
Proof.
  revert p. unfold revealCallback.
  induction entries as [|entry entries IH]; intros p; simpl.
  - by rewrite app_nil_r.
  - rewrite IH, revealEntry_frameRequests, <- app_assoc. f_equal.
    rewrite (counted_in_ext p (revealEntry p entry) entries)
      by apply revealEntry_getAttribute.
    rewrite (list_fmap_ext (counter_of (revealEntry p entry)) (counter_of p)
               (counted_in p entries))
      by (intros; apply counter_of_ext, revealEntry_getAttribute).
    rewrite <- fmap_app. f_equal.
    unfold counted_in, revealed_in.
    change (entry :: entries) with ([entry] ++ entries).
    by rewrite filter_app, fmap_app, filter_app.
Qed.

(** X9. A delivery requests one frame for each intersecting entry whose
    target has the attribute [data-count], in the order of the entries,
    and no other: the counter is set up from the target's [data-count] and
    [data-suffix], with no start time yet. *)
Theorem revealCallback_starts_counters (entries : list Entry) (p : Page) :
  frameRequests (revealCallback entries p)
  = frameRequests p ++ (counter_of p <$> counted_in p entries).
Proof. exact (revealCallback_frameRequests entries p). Qed.

(** ** The press feedback of a play button *)

Lemma get_style_set p n k v :
  is_Some (dom p !! n) → get_style (update n (with_style k v) p) n k = Some v.
Proof.
  intros [e He]. unfold get_style. rewrite lookup_update_eq, He. simpl.
  apply lookup_insert_eq.
Qed.

Lemma get_style_update_ne p m n f k :
  m ≠ n → get_style (update m f p) n k = get_style p n k.
Proof. intros Hne. unfold get_style. by rewrite lookup_update_ne. Qed.

Lemma get_style_update_same p m f n k :
  (∀ e, style (f e) = style e) → get_style (update m f p) n k = get_style p n k.
Proof.
  intros Hf. unfold get_style. destruct (decide (m = n)) as [->|Hne].
  - rewrite lookup_update_eq. destruct (dom p !! n); simpl; [by rewrite Hf|done].
  - by rewrite lookup_update_ne.
Qed.

Lemma get_style_is_Some p n k v : get_style p n k = Some v → is_Some (dom p !! n).
Proof. unfold get_style. destruct (dom p !! n); [eauto|done]. Qed.

Lemma playClick_transform btn p :
  is_Some (dom p !! btn) → get_style (playClick btn p) btn "transform" = Some "scale(0.9)".
Proof.
  intros Hbtn. unfold playClick.
  change (get_style
            (update btn (with_innerHTML loadingLabel)
               (update btn (with_style "transform" "scale(0.9)") p)) btn "transform"
          = Some "scale(0.9)").
  rewrite get_style_update_same by done. by apply get_style_set.
Qed.

Lemma fire_keeps_reset cb p btn :
  get_style p btn "transform" = Some "scale(1)" →
  get_style (fire cb p) btn "transform" = Some "scale(1)".
Proof.
  intros Hs. destruct cb as [x|x L]; simpl.
  - destruct (decide (x = btn)) as [->|Hne].
    + apply get_style_set. by apply (get_style_is_Some _ _ _ _ Hs).
    + by rewrite get_style_update_ne.
  - change (get_style (update x (with_innerHTML L) p) btn "transform" = Some "scale(1)").
    by rewrite get_style_update_same.
Qed.

Lemma fire_other_transform cb p btn :
  cb ≠ ResetTransform btn →
  get_style (fire cb p) btn "transform" = get_style p btn "transform".
Proof.
  intros Hcb. destruct cb as [x|x L]; simpl.
  - apply get_style_update_ne. congruence.
  - change (get_style (update x (with_innerHTML L) p) btn "transform"
            = get_style p btn "transform").
    by rewrite get_style_update_same.
Qed.

Lemma run_due_keeps_reset D q p btn :
  get_style p btn "transform" = Some "scale(1)" →
  get_style (run_due D q p) btn "transform" = Some "scale(1)".
Proof.
  revert p. induction q as [|t q IH]; intros p Hs; simpl; [done|].
  destruct (_ <=? _)%N; [|done]. by apply IH, fire_keeps_reset.
Qed.

Lemma run_due_other_transform D q p btn :
  Forall (λ t, timer_callback t = ResetTransform btn → (D < timer_due t)%N) q →
  get_style (run_due D q p) btn "transform" = get_style p btn "transform".
Proof.
  revert p. induction q as [|t q IH]; intros p Hq; simpl; [done|].
  apply Forall_cons in Hq as [Ht Hq].
  destruct (N.leb_spec (timer_due t) D); [|done].
  rewrite IH by done. apply fire_other_transform. intros Hcb. apply Ht in Hcb. lia.
Qed.

Lemma fire_all_is_Some p q n : is_Some (dom p !! n) → is_Some (dom (fire_all p q) !! n).
Proof.
  intros Hn. apply lookup_lt_is_Some. rewrite fire_all_length. by apply lookup_lt_is_Some.
Qed.

(** What stands before a timer in the queue is due no later than it. *)
Lemma enqueue_split t q :
  ∃ pre post, enqueue t q = pre ++ t :: post
              ∧ Forall (λ x, (timer_due x ≤ timer_due t)%N) pre.
Proof.
  induction q as [|x q (pre & post & IH & Hpre)]; simpl.
  - by exists [], [].
  - destruct (N.ltb_spec (timer_due t) (timer_due x)).
    + by exists [], (x :: q).
    + exists (x :: pre), post. rewrite IH. split; [done|]. by constructor.
Qed.

Lemma enqueue_before t x pre post :
  Forall (λ y, (timer_due y ≤ timer_due x)%N) pre →
  ∃ pre' post', enqueue t (pre ++ x :: post) = pre' ++ x :: post'
                ∧ Forall (λ y, (timer_due y ≤ timer_due x)%N) pre'.
Proof.
  induction 1 as [|y pre Hy Hpre (pre' & post' & IH & Hpre')]; simpl.
  - destruct (N.ltb_spec (timer_due t) (timer_due x)).
    + exists [t], post. split; [done|]. repeat constructor. lia.
    + exists [], (enqueue t post). by split.
  - destruct (N.ltb_spec (timer_due t) (timer_due y)).
    + exists (t :: y :: pre), post. split; [done|].
      repeat constructor; [lia|done|done].
    + exists (y :: pre'), post'. rewrite IH. split; [done|]. by constructor.
Qed.

(** X10. A click on a play button scales it to 0.9.  When 150 or more
    have passed it is back at scale 1, whatever other timers were
    pending; before that it stays at 0.9 unless an earlier press of the
    same button has its reset still to come. *)
Theorem press_feedback (p : Page) (btn : nat) (d : N) :
  is_Some (dom p !! btn) →
  get_style (playClick btn p) btn "transform" = Some "scale(0.9)"
  ∧ ((150 ≤ d)%N →
     get_style (elapse d (playClick btn p)) btn "transform" = Some "scale(1)")
  ∧ ((d < 150)%N →
     Forall (λ t, timer_callback t ≠ ResetTransform btn) (timers p) →
     get_style (elapse d (playClick btn p)) btn "transform" = Some "scale(0.9)").
Proof.
  intros Hbtn. pose proof (playClick_transform btn p Hbtn) as Hpress.
  split_and!; [done| |].
  - intros Hd. unfold elapse.
    change (get_style (run_due (clock (playClick btn p) + d) (timers (playClick btn p))
                         (playClick btn p)) btn "transform" = Some "scale(1)").
    rewrite playClick_timers, playClick_clock.
    set (reset := mkTimer (nextTimer p) (clock p + 150) (ResetTransform btn)).
    destruct (enqueue_split reset (timers p)) as (pre & post & -> & Hpre).
    destruct (enqueue_before
                (mkTimer (S (nextTimer p)) (clock p + 800)
                   (RestoreLabel btn (get_innerHTML p btn))) reset pre post Hpre)
      as (pre' & post' & -> & Hpre').
    rewrite run_due_app.
    + simpl run_due. destruct (N.leb_spec (clock p + 150) (clock p + d)); [|lia].
      apply run_due_keeps_reset. simpl. apply get_style_set.
      apply fire_all_is_Some. apply lookup_lt_is_Some. rewrite playClick_length.
      by apply lookup_lt_is_Some.
    + eapply Forall_impl; [exact Hpre'|]. simpl. intros t Ht. lia.
  - intros Hd Hnone. unfold elapse.
    change (get_style (run_due (clock (playClick btn p) + d) (timers (playClick btn p))
                         (playClick btn p)) btn "transform" = Some "scale(0.9)").
    rewrite run_due_other_transform; [done|].
    rewrite playClick_timers, playClick_clock.
    apply Forall_enqueue; [done|]. apply Forall_enqueue; [simpl; lia|].
    eapply Forall_impl; [exact Hnone|]. simpl. intros t Ht Hcb. done.
Qed.

Lemma press_feedback_witness :
  get_style (playClick 1 playPage) 1 "transform" = Some "scale(0.9)"
  ∧ ((150 ≤ 150)%N →
     get_style (elapse 150 (playClick 1 playPage)) 1 "transform" = Some "scale(1)")
  ∧ ((150 < 150)%N →
     Forall (λ t, timer_callback t ≠ ResetTransform 1) (timers playPage) →
     get_style (elapse 150 (playClick 1 playPage)) 1 "transform" = Some "scale(0.9)").
Proof.
  apply (press_feedback playPage 1 150). simpl. eauto.
Defined.

(** ** Timers and notices over any activity *)

Lemma run_due_conserves D q p :
  alerts (run_due D q p) ++ notices (pending_notices (timers (run_due D q p)))
  = alerts p ++ notices (pending_notices q).
Proof.
  revert p. induction q as [|t q IH]; intros p; simpl; [done|].
  destruct (_ <=? _)%N; [|done].
  rewrite IH, fire_alerts, pending_notices_cons, notices_add. by rewrite app_assoc.
Qed.

Lemma perform_conserves p a :
  alerts (perform p a) ++ notices (pending_notices (timers (perform p a)))
  = alerts p ++ notices (pending_notices (timers p) + presses [a]).
Proof.
  destruct a as [btn|dt]; cbn [perform presses].
  - rewrite playClick_alerts, playClick_timers, !pending_notices_enqueue.
    cbn [is_restore timer_callback]. f_equal. f_equal. lia.
  - rewrite Nat.add_0_r. apply run_due_conserves.
Qed.

Lemma presses_cons a acts : presses (a :: acts) = presses [a] + presses acts.
Proof. by destruct a. Qed.

(** X11. Over any presses of play buttons and any passing of time, the
    notices shown and the notices still to come from pending timers add
    up to those at the outset plus one for each press: every press gets
    its notice once, none is lost and none is shown twice.  Every alert
    the script shows is that notice. *)
Theorem notices_conserved (p : Page) (acts : list Activity) :
  alerts (foldl perform p acts)
    ++ notices (pending_notices (timers (foldl perform p acts)))
  = alerts p ++ notices (pending_notices (timers p) + presses acts).
Proof.
  revert p. induction acts as [|a acts IH]; intros p.
  - simpl. by rewrite Nat.add_0_r.
  - simpl foldl. rewrite IH, (presses_cons a acts), Nat.add_assoc, notices_add, app_assoc.
    rewrite perform_conserves, <- app_assoc, <- notices_add. done.
Qed.

(** X12. On a page whose timers are all due within 800, once 800 or more
    have passed without a press no timer is pending, and [alert] has shown
    one notice for each label that was to be restored. *)
Theorem idle_after_800 (p : Page) (dt : N) :
  timers_within p → (800 ≤ dt)%N →
  timers (elapse dt p) = []
  ∧ alerts (elapse dt p) = alerts p ++ notices (pending_notices (timers p)).
Proof.
  intros Hwithin Hdt.
  assert (Hdue : Forall (λ t, (timer_due t ≤ clock p + dt)%N) (timers p)).
  { eapply Forall_impl; [exact Hwithin|]. simpl. intros t Ht. lia. }
  split.
  - rewrite elapse_timers. by apply run_due_all.
  - pose proof (run_due_conserves (clock p + dt) (timers p) p) as Hc.
    rewrite (run_due_all _ _ p Hdue) in Hc. simpl in Hc. by rewrite app_nil_r in Hc.
Qed.

Lemma idle_after_800_witness :
  timers (elapse 800 (playClick 1 playPage)) = []
  ∧ alerts (elapse 800 (playClick 1 playPage))
    = alerts (playClick 1 playPage)
      ++ notices (pending_notices (timers (playClick 1 playPage))).
Proof.
  apply (idle_after_800 (playClick 1 playPage) 800).
  - repeat constructor; simpl; lia.
  - lia.
Defined.
Section TimerInvariant.
Context (I : Page → Prop).
Hypothesis I_same : ∀ p q, clock q = clock p → timers q = timers p → I p → I q.
Hypothesis I_playClick : ∀ btn p, I p → I (playClick btn p).
Hypothesis I_elapse : ∀ dt p, I p → I (elapse dt p).

Lemma invariant_foldl {A} (f : Page → A → Page) l p :
  (∀ q x, I q → I (f q x)) → I p → I (foldl f p l).
Proof.
  intros Hf. revert p. induction l as [|x l IH]; intros p Hp; simpl; [done|].
  by apply IH, Hf.
Qed.

Lemma invariant_run_handler h t p : I p → I (run_handler h t p).
Proof.
  destruct h; simpl.
  - unfold handleScroll. destruct (Qlt_le_dec _ _); by apply I_same.
  - by apply I_same.
  - destruct (has_class _ _ _); [by apply I_same|done].
  - destruct (_ && _); [by apply I_same|done].
  - apply I_playClick.
Qed.

Lemma invariant_dispatch p ev : I p → I (dispatch p ev).
Proof.
  intros Hp. destruct ev as [y|t|entries|ts|dt]; simpl.
  - unfold scroll. apply invariant_foldl.
    + intros q h. apply invariant_run_handler.
    + by apply (I_same p).
  - unfold click. apply invariant_foldl; [|done].
    intros q h. apply invariant_run_handler.
  - unfold revealCallback. apply invariant_foldl; [|done].
    intros q e. unfold revealEntry. destruct (isIntersecting e); [|done].
    destruct (hasAttribute _ _ _); by apply I_same.
  - unfold animationFrame. apply invariant_foldl.
    + intros q c. unfold step. destruct (Qlt_le_dec _ _); by apply I_same.
    + by apply (I_same p).
  - by apply I_elapse.
Qed.

Lemma invariant_run evs p : I p → I (run evs p).
Proof.
  revert p. induction evs as [|ev evs IH]; intros p Hp; [done|].
  rewrite run_cons. by apply IH, invariant_dispatch.
Qed.
End TimerInvariant.

Lemma enqueue_in_order t q :
  StronglySorted (λ a b, (timer_due a ≤ timer_due b)%N) q →
  StronglySorted (λ a b, (timer_due a ≤ timer_due b)%N) (enqueue t q).
Proof.
  induction 1 as [|x q Hq IH Hx]; simpl; [repeat constructor|].
  destruct (N.ltb_spec (timer_due t) (timer_due x)).
  - constructor; [by constructor|]. constructor; [lia|].
    eapply Forall_impl; [exact Hx|]. simpl. intros y Hy. lia.
  - constructor; [done|]. by apply Forall_enqueue.
Qed.

Lemma run_due_ahead D q p :
  StronglySorted (λ a b, (timer_due a ≤ timer_due b)%N) q →
  StronglySorted (λ a b, (timer_due a ≤ timer_due b)%N) (timers (run_due D q p))
  ∧ Forall (λ t, (D < timer_due t)%N) (timers (run_due D q p)).
Proof.
  intros Hq. revert p. induction Hq as [|x q Hq IH Hx]; intros p; simpl.
  - split; constructor.
  - destruct (N.leb_spec (timer_due x) D); [apply IH|]. simpl. split.
    + by constructor.
    + constructor; [done|]. eapply Forall_impl; [exact Hx|]. simpl. intros y Hy. lia.
Qed.

Lemma timers_ahead_playClick btn p : timers_ahead p → timers_ahead (playClick btn p).
Proof.
  intros [Hs Ha]. unfold timers_ahead. rewrite playClick_timers, playClick_clock. split.
  - by do 2 apply enqueue_in_order.
  - apply Forall_enqueue; [simpl; lia|]. apply Forall_enqueue; [simpl; lia|done].
Qed.

Lemma timers_ahead_elapse dt p : timers_ahead p → timers_ahead (elapse dt p).
Proof.
  intros [Hs _]. unfold timers_ahead. rewrite elapse_timers, elapse_clock.
  by apply run_due_ahead.
Qed.

(** X13. On the initialised page, after any events, the pending timers
    stand in firing order and each of them is due after the current time
    and within 800 of it: the script sets no timer further ahead, and
    none that has come due is left waiting. *)
Theorem timers_due_within_800 (d : list Element) (evs : list Event) :
  timers_within (run evs (boot d)) ∧ timers_ahead (run evs (boot d)).
Proof.
  apply (invariant_run (λ p, timers_within p ∧ timers_ahead p)).
  - intros p q Hc Ht [Hw Ha]. unfold timers_within, timers_ahead. by rewrite Hc, Ht.
  - intros btn p [Hw Ha].
    split; [by apply timers_within_playClick|by apply timers_ahead_playClick].
  - intros dt p [Hw Ha].
    split; [by apply timers_within_elapse|by apply timers_ahead_elapse].
  - destruct (init_effect (load d)) as (p' & E & _ & (Hc & Ht & _) & _).
    pose proof (init_boot d) as E'. rewrite E in E'. injection E' as ->.
    unfold timers_within, timers_ahead. rewrite Ht. repeat constructor.
Qed.

(** ** More on the counter *)








(** ** From the reveal to the final number *)








(** ** A click on a play button, on the page *)












Section PlayButton.
Context (b n btn target : nat) (L : string).




End PlayButton.



(** ** A click on the toggle, at any time *)


